(** * Showdown: a shallow embedding of the session coordination layer

    The shared [gameState] of the Scrum Poker server (players map, reveal
    flag, Scrum Master connection), the Bubble Tea [Update] functions of the
    master, player and name-input views, the SSH handler and session-close
    middleware, the name validator and [calculateStatistics].

    SSH sessions are opaque handles compared by identity (Go interface
    equality on the session pointer); we use [nat] identifiers. Terminal
    widgets (the bubbles list and text input) are external collaborators and
    appear as function parameters. *)

From Stdlib Require Import ZArith Bool Lia Floats String Ascii Sorted.
From stdpp Require Import base gmap strings list.

Local Open Scope string_scope.

(* ------------------------------------------------------------------ *)
(** ** Game state (gameState / playerState) *)

Definition sshSession := nat.

Record playerState := mkPlayer {
  points : string;
  session : sshSession;
  selected : bool
}.

Record gameState := mkGame {
  players : gmap string playerState;
  revealed : bool;
  masterConn : option sshSession
}.

(** [state = &gameState{players: make(map[string]*playerState)}] *)
Definition initialState : gameState := mkGame ∅ false None.

(** Field updates of the shared state (each done under [state.mu.Lock]). *)
Definition setRevealed (b : bool) (st : gameState) : gameState :=
  mkGame (players st) b (masterConn st).

Definition setPlayers (m : gmap string playerState) (st : gameState) : gameState :=
  mkGame m (revealed st) (masterConn st).

Definition setMasterConn (c : option sshSession) (st : gameState) : gameState :=
  mkGame (players st) (revealed st) c.

(* ------------------------------------------------------------------ *)
(** ** main.go (master view): clearPlayerState, quitPlayers *)

(** Body of the loop of [clearPlayerState]:
    [player.points = empty; player.selected = false]. *)
Definition resetVote (p : playerState) : playerState :=
  mkPlayer EmptyString (session p) false.

(** [clearPlayerState]: under the write lock, [state.revealed = false] and
    every player's selection is reset. *)
Definition clearPlayerState (st : gameState) : gameState :=
  mkGame (resetVote <$> players st) false (masterConn st).

(** The sessions [quitPlayers] resets and closes (in map iteration order). *)
Definition quitPlayersClosed (st : gameState) : list sshSession :=
  (fun kv : string * playerState => session kv.2) <$> map_to_list (players st).

(** [quitPlayers]: closes every player session, then
    [state.players = make(map[string]*playerState)]. *)
Definition quitPlayers (st : gameState) : gameState :=
  setPlayers ∅ st.

(* ------------------------------------------------------------------ *)
(** ** main.go: masterView.Update *)

(** Messages the master program receives ([tea.Msg] cases). Key messages
    carry [msg.String()]. *)
Inductive masterMsg :=
| MKey (k : string)
| MWindowSize (width : Z)
| MTick
| MTimerExpired.

(** Commands returned by [Update]; [CmdTimer d] is
    [tea.Batch(tickEvery(), startTimer(d))]. *)
Inductive cmd :=
| CmdNone
| CmdQuit
| CmdTick
| CmdTimer (duration : Z)
| CmdWidget.

(** The [masterView] model. [endTime] is [None] for the zero [time.Time];
    times and durations are in seconds. [timer] is the [*time.Timer] field:
    [Update] only ever assigns [nil] to it. *)
Record masterView := mkMasterView {
  mvRevealed : bool;
  timer : option nat;
  endTime : option Z;
  duration : Z;
  helpWidth : Z
}.

Definition newMasterView : masterView := mkMasterView false None None 0 0.

(** [keysMaster] bindings. *)
Definition quitKeys := ["q"; "esc"; "ctrl+c"].
Definition keyMatches (k : string) (keys : list string) : bool :=
  bool_decide (k ∈ keys).

(** [timerDurations]: "1" -> 15s, "3" -> 30s, "6" -> 60s. *)
Definition timerDurations (k : string) : option Z :=
  if String.eqb k "1" then Some 15%Z
  else if String.eqb k "3" then Some 30%Z
  else if String.eqb k "6" then Some 60%Z
  else None.

Definition withTimerNil (m : masterView) : masterView :=
  mkMasterView (mvRevealed m) None (endTime m) (duration m) (helpWidth m).

(** [masterView.Update]; [now] is [time.Now()]. *)
Definition masterUpdate (now : Z) (st : gameState) (m : masterView)
    (msg : masterMsg) : gameState * masterView * cmd :=
  match msg with
  | MWindowSize w =>
      (st, mkMasterView (mvRevealed m) (timer m) (endTime m) (duration m) w, CmdNone)
  | MKey k =>
      if keyMatches k quitKeys then
        (setMasterConn None (quitPlayers st), m, CmdQuit)
      else if keyMatches k ["r"] then
        (setRevealed true st, m, CmdTick)
      else if keyMatches k ["c"] then
        (clearPlayerState st, withTimerNil m, CmdTick)
      else if keyMatches k ["d"] then
        (quitPlayers st, withTimerNil m, CmdTick)
      else if keyMatches k ["1"; "3"; "6"] then
        let d := default 0%Z (timerDurations k) in
        (clearPlayerState st,
         mkMasterView (mvRevealed m) (timer m) (Some (now + d)%Z) d (helpWidth m),
         CmdTimer d)
      else (st, m, CmdNone)
  | MTick => (st, m, CmdTick)
  | MTimerExpired => (setRevealed true st, withTimerNil m, CmdTick)
  end.

(* ------------------------------------------------------------------ *)
(** ** The master program with its timer commands

    [startTimer(d)] runs in its own goroutine: it sleeps [d] seconds and then
    delivers [timerExpiredMsg{}] to the master's [Update]. The runtime keeps
    the deadlines of all timer commands still sleeping ([pending]); nothing
    in the code cancels one. Events arrive in time order. *)

Record masterRuntime := mkRuntime {
  rtState : gameState;
  rtView : masterView;
  rtNow : Z;
  pending : list Z
}.

Inductive rtEvent :=
| EvMsg (t : Z) (msg : masterMsg)   (* an input message at time [t] *)
| EvFire (i : nat).                 (* the [i]-th sleeping timer wakes up *)

Definition startedTimers (t : Z) (c : cmd) : list Z :=
  match c with CmdTimer d => [(t + d)%Z] | _ => [] end.

Definition isTimerExpired (msg : masterMsg) : bool :=
  match msg with MTimerExpired => true | _ => false end.

Definition rtStep (w : masterRuntime) (e : rtEvent) : option masterRuntime :=
  match e with
  | EvMsg t msg =>
      if negb (isTimerExpired msg) && (rtNow w <=? t)%Z
         && forallb (fun d => (t <=? d)%Z) (pending w) then
        let '(st', m', c) := masterUpdate t (rtState w) (rtView w) msg in
        Some (mkRuntime st' m' t (pending w ++ startedTimers t c))
      else None
  | EvFire i =>
      match pending w !! i with
      | Some d =>
          if (rtNow w <=? d)%Z && forallb (fun d' => (d <=? d')%Z) (pending w) then
            let '(st', m', _) := masterUpdate d (rtState w) (rtView w) MTimerExpired in
            Some (mkRuntime st' m' d (delete i (pending w)))
          else None
      | None => None
      end
  end.

Fixpoint rtRun (w : masterRuntime) (es : list rtEvent) : option masterRuntime :=
  match es with
  | [] => Some w
  | e :: es' => match rtStep w e with Some w' => rtRun w' es' | None => None end
  end.

(* ------------------------------------------------------------------ *)
(** ** player.go: playerView.Update *)

(** [pointOptions] of player.go. *)
Definition pointOptions : list string :=
  ["0.5"; "1"; "2"; "3"; "5"; "8"; "10"; "?"].

(** The state of the bubbles list: its items and the selected index. *)
Record listModel := mkList { items : list string; index : nat }.

Definition selectedItem (l : listModel) : option string := items l !! index l.

Record playerView := mkPlayerView {
  name : string;
  list_ : listModel;
  pvSelected : string
}.

Inductive playerMsg :=
| PKey (k : string)
| PTick
| POther.

Section PlayerUpdate.
(** [p.list.Update(msg)]: the external list widget. *)
Variable listUpdate : listModel -> playerMsg -> listModel * cmd.

(** [playerView.Update]. The reveal flag is read under the read lock once,
    at the start; the vote is written under the write lock. *)
Definition playerUpdate (st : gameState) (p : playerView) (msg : playerMsg)
    : gameState * playerView * cmd :=
  let rev := revealed st in
  let '(l, c) := if negb rev then listUpdate (list_ p) msg else (list_ p, CmdNone) in
  let p := mkPlayerView (name p) l (pvSelected p) in
  let selectedValue := default EmptyString (selectedItem l) in
  match msg with
  | PKey k =>
      if keyMatches k ["q"; "esc"; "ctrl+c"] then
        (setPlayers (delete (name p) (players st)) st, p, CmdQuit)
      else if String.eqb k "enter" then
        if negb rev then
          let st' :=
            match players st !! name p with
            | Some pl =>
                setPlayers (<[name p := mkPlayer selectedValue (session pl) true]>
                              (players st)) st
            | None => st
            end in
          (st', mkPlayerView (name p) l selectedValue, c)
        else (st, p, c)
      else (st, p, c)
  | PTick => (st, p, CmdTick)
  | POther => (st, p, c)
  end.
End PlayerUpdate.

(* ------------------------------------------------------------------ *)
(** ** player.go: initPlayerView and nameInputView.Update *)

Definition initialList : listModel := mkList pointOptions 0.

(** [initPlayerView]: builds the player view and, under the write lock,
    [state.players[playerName] = &playerState{session: session}]. *)
Definition initPlayerView (st : gameState) (playerName : string) (s : sshSession)
    : gameState * playerView :=
  (setPlayers (<[playerName := mkPlayer EmptyString s false]> (players st)) st,
   mkPlayerView playerName initialList EmptyString).

Record nameInputView := mkNameInput {
  textValue : string;
  err : option string;
  nSession : sshSession
}.

Inductive nameMsg :=
| NEnter
| NCtrlC
| NTick
| NOther.

(** What [nameInputView.Update] returns as its model. *)
Inductive nameResult :=
| StayInName (v : nameInputView) (c : cmd)
| ToPlayerView (p : playerView).

Section NameInput.
(** [v.textInput.Update(msg)]: the external text input widget. *)
Variable textInputUpdate : string -> nameMsg -> string * cmd.

(** [nameInputView.Update]. *)
Definition nameInputUpdate (st : gameState) (v : nameInputView) (msg : nameMsg)
    : gameState * nameResult :=
  match msg with
  | NEnter =>
      let nm := textValue v in
      if String.eqb nm EmptyString then
        (st, StayInName (mkNameInput nm (Some "name cannot be empty") (nSession v)) CmdNone)
      else if bool_decide (is_Some (players st !! nm)) then
        (st, StayInName (mkNameInput nm (Some "name already taken") (nSession v)) CmdNone)
      else
        let '(st', p) := initPlayerView st nm (nSession v) in
        (st', ToPlayerView p)
  | NCtrlC => (st, StayInName v CmdQuit)
  | NTick => (st, StayInName v CmdTick)
  | NOther =>
      let '(t, c) := textInputUpdate (textValue v) msg in
      (st, StayInName (mkNameInput t (err v) (nSession v)) c)
  end.
End NameInput.

(* ------------------------------------------------------------------ *)
(** ** Registration split into its two critical sections

    [nameInputView.Update] looks the name up under [state.mu.RLock] and
    releases the lock; [initPlayerView] then inserts under [state.mu.Lock].
    Each connection runs its own program (goroutine), so the two sections of
    different connections interleave. *)

Inductive regPc :=
| RegStart                 (* Enter pressed, nothing done yet *)
| RegChecked               (* read-locked lookup passed *)
| RegRejected (e : string) (* [v.err] set, stays in the name view *)
| RegJoined.               (* [initPlayerView] ran *)

Record regAttempt := mkAttempt {
  aView : nameInputView;
  aPc : regPc
}.

(** One atomic section of one attempt. *)
Definition regStep (st : gameState) (a : regAttempt) : gameState * regAttempt :=
  let v := aView a in
  let nm := textValue v in
  match aPc a with
  | RegStart =>
      if String.eqb nm EmptyString then (st, mkAttempt v (RegRejected "name cannot be empty"))
      else if bool_decide (is_Some (players st !! nm)) then
        (st, mkAttempt v (RegRejected "name already taken"))
      else (st, mkAttempt v RegChecked)
  | RegChecked =>
      let '(st', _) := initPlayerView st nm (nSession v) in (st', mkAttempt v RegJoined)
  | _ => (st, a)
  end.

(** Runs a schedule: each entry picks the attempt that takes its next section. *)
Fixpoint regRun (st : gameState) (as_ : list regAttempt) (sched : list nat)
    : gameState * list regAttempt :=
  match sched with
  | [] => (st, as_)
  | i :: sched' =>
      match as_ !! i with
      | Some a => let '(st', a') := regStep st a in regRun st' (<[i := a']> as_) sched'
      | None => regRun st as_ sched'
      end
  end.

(* ------------------------------------------------------------------ *)
(** ** A vote split into its two critical sections

    [playerView.Update] reads [state.revealed] under [state.mu.RLock] and
    releases the lock; on enter it later takes [state.mu.Lock] to write the
    vote, without reading the flag again. The master's program runs
    concurrently and can take the lock in between. *)

Inductive votePc :=
| VoteStart                (* enter pressed, nothing done yet *)
| VoteRead (rev : bool)    (* [revealed := state.revealed] read *)
| VoteDone.

(** One atomic section of the enter key ([listUpdate] is the list widget). *)
Definition voteStep (listUpdate : listModel -> playerMsg -> listModel * cmd)
    (st : gameState) (p : playerView) (pc : votePc) : gameState * votePc :=
  match pc with
  | VoteStart => (st, VoteRead (revealed st))
  | VoteRead rev =>
      if negb rev then
        let l := (listUpdate (list_ p) (PKey "enter")).1 in
        let selectedValue := default EmptyString (selectedItem l) in
        match players st !! name p with
        | Some pl =>
            (setPlayers (<[name p := mkPlayer selectedValue (session pl) true]>
                           (players st)) st, VoteDone)
        | None => (st, VoteDone)
        end
      else (st, VoteDone)
  | VoteDone => (st, VoteDone)
  end.

(* ------------------------------------------------------------------ *)
(** ** player_test.go (server main): pokerHandler and sessionCloseMiddleware *)

(** The model a session's program is started with. *)
Inductive handlerResult :=
| StartMaster        (* [newMasterView()] *)
| StartNameInput     (* [initialNameInputView(s)] *)
| Denied             (* [wish.Fatalln(s, "Scrum Master is already connected")] *)
| NoTerminal.        (* [wish.Fatalln(s, "no active terminal, skipping")] *)

(** [pokerHandler]: [pty] is [s.Pty()]'s [active], [authorized] is
    [checkAuthorizedKey(s)]. *)
Definition pokerHandler (st : gameState) (s : sshSession) (pty authorized : bool)
    : gameState * handlerResult :=
  if negb pty then (st, NoTerminal)
  else if authorized then
    match masterConn st with
    | None => (setMasterConn (Some s) st, StartMaster)
    | Some _ => (st, Denied)
    end
  else (st, StartNameInput).

(** [sessionCloseMiddleware], after the inner handler returned:
    [if state.masterConn == s { state.masterConn = nil }]. *)
Definition sessionClose (st : gameState) (s : sshSession) : gameState :=
  match masterConn st with
  | Some m => if Nat.eqb m s then setMasterConn None st else st
  | None => st
  end.

(** Which program a live session runs. *)
Inductive viewKind := VMaster | VOther.

Record server := mkServer {
  sState : gameState;
  live : list (sshSession * viewKind)
}.

(** A master program handles its key messages one at a time. The quit key
    only returns [tea.Quit]: the program ends when the [QuitMsg] that command
    produces is received, and key messages queued before it are still passed
    to [Update]. The end of a program (on its [QuitMsg], or when the client
    goes away) is [SessionEnd]. *)
Inductive serverEvent :=
| Connect (s : sshSession) (pty authorized : bool)
| MasterKey (s : sshSession) (k : string)   (* the master's [Update] on a key *)
| SessionEnd (s : sshSession).              (* the program of [s] ends *)

Definition isLive (w : server) (s : sshSession) : bool :=
  existsb (fun sk => Nat.eqb sk.1 s) (live w).

Definition runsMaster (w : server) (s : sshSession) : bool :=
  existsb (fun sk => Nat.eqb sk.1 s && match sk.2 with VMaster => true | VOther => false end)
          (live w).

Definition dropLive (s : sshSession) (l : list (sshSession * viewKind)) :=
  List.filter (fun sk => negb (Nat.eqb sk.1 s)) l.

(** One event of the middleware chain. A handler that returns no model
    ([Denied], [NoTerminal]) ends its session at once, so the close
    middleware runs right after it. For a key, the shared state is the one
    [masterUpdate] returns; it does not depend on the master's model or on
    the time (lemma [masterUpdate_key_state]). *)
Definition serverStep (w : server) (e : serverEvent) : option server :=
  match e with
  | Connect s pty auth =>
      if isLive w s then None else
      let '(st', r) := pokerHandler (sState w) s pty auth in
      match r with
      | StartMaster => Some (mkServer st' ((s, VMaster) :: live w))
      | StartNameInput => Some (mkServer st' ((s, VOther) :: live w))
      | Denied | NoTerminal => Some (mkServer (sessionClose st' s) (live w))
      end
  | MasterKey s k =>
      if runsMaster w s then
        let '(st', _, _) := masterUpdate 0 (sState w) newMasterView (MKey k) in
        Some (mkServer st' (live w))
      else None
  | SessionEnd s =>
      if isLive w s then Some (mkServer (sessionClose (sState w) s) (dropLive s (live w)))
      else None
  end.

Fixpoint serverRun (w : server) (es : list serverEvent) : option server :=
  match es with
  | [] => Some w
  | e :: es' => match serverStep w e with Some w' => serverRun w' es' | None => None end
  end.

Definition initialServer : server := mkServer initialState [].

(** The sessions currently running the master view. *)
Definition liveMasters (w : server) : list sshSession :=
  (fun sk : sshSession * viewKind => sk.1) <$>
    List.filter (fun sk : sshSession * viewKind => match sk.2 with VMaster => true | VOther => false end)
           (live w).

(* ------------------------------------------------------------------ *)
(** ** player_test.go (server main): validatePlayerName

    Go strings are UTF-8 byte strings; we work on their bytes. *)

Definition bytesOf (s : string) : list nat :=
  List.map nat_of_ascii (list_ascii_of_string s).

(** [lo <= c && c <= hi] on bytes. *)
Definition between (lo c hi : nat) : bool := Nat.leb lo c && Nat.leb c hi.

(** The UTF-8 encodings of the runes [unicode.IsSpace] accepts. *)
Definition spaceEncodings : list (list nat) :=
  [[9]; [10]; [11]; [12]; [13]; [32];
   [194; 133]; [194; 160]; [225; 154; 128];
   [226; 128; 128]; [226; 128; 129]; [226; 128; 130]; [226; 128; 131];
   [226; 128; 132]; [226; 128; 133]; [226; 128; 134]; [226; 128; 135];
   [226; 128; 136]; [226; 128; 137]; [226; 128; 138];
   [226; 128; 168]; [226; 128; 169]; [226; 128; 175]; [226; 129; 159];
   [227; 128; 128]].

Fixpoint bytesPrefix (p s : list nat) : bool :=
  match p, s with
  | [], _ => true
  | x :: p', y :: s' => Nat.eqb x y && bytesPrefix p' s'
  | _ :: _, [] => false
  end.

(** Length of the leading space rune of [s], if any. *)
Definition leadingSpace (s : list nat) : option nat :=
  length <$> List.find (fun e => bytesPrefix e s) spaceEncodings.

Fixpoint trimLeftSpace (fuel : nat) (s : list nat) : list nat :=
  match fuel with
  | O => s
  | S fuel' =>
      match leadingSpace s with
      | Some n => trimLeftSpace fuel' (drop n s)
      | None => s
      end
  end.

(** Trailing space runes: a suffix that is exactly a space encoding. *)
Fixpoint trimRightSpaceRev (fuel : nat) (r : list nat) : list nat :=
  match fuel with
  | O => r
  | S fuel' =>
      match List.find (fun e => bytesPrefix (rev e) r) spaceEncodings with
      | Some e => trimRightSpaceRev fuel' (drop (length e) r)
      | None => r
      end
  end.

(** [strings.TrimSpace]. *)
Definition trimSpace (s : list nat) : list nat :=
  let l := trimLeftSpace (length s) s in
  rev (trimRightSpaceRev (length l) (rev l)).

Definition minNameLength := 2.
Definition maxNameLength := 20.

(** [validNameRegex = ^[a-zA-Z0-9 _-]+$]: every rune is one of these ASCII
    characters (a non-ASCII rune, and so any byte >= 128, fails). *)
Definition validNameByte (c : nat) : bool :=
  (between 97 c 122) || (between 65 c 90)
  || (between 48 c 57) || (Nat.eqb c 32) || (Nat.eqb c 95) || (Nat.eqb c 45).

Definition validNameRegexMatch (s : list nat) : bool :=
  negb (Nat.eqb (length s) 0) && forallb validNameByte s.

(** [unicode.IsControl] over the runes of [s]: C0 controls, DEL and the C1
    controls U+0080..U+009F (encoded 0xC2 0x80..0x9F). *)
Fixpoint hasControl (s : list nat) : bool :=
  match s with
  | [] => false
  | c :: s' =>
      (Nat.ltb c 32) || (Nat.eqb c 127)
      || ((Nat.eqb c 194) && match s' with d :: _ => between 128 d 159 | [] => false end)
      || hasControl s'
  end.

(** [strings.ToLower] on a name that passed [validNameRegex]
    ([^[a-zA-Z0-9 _-]+$], ASCII only): only the letters A-Z change. A name
    with a non-ASCII letter that Unicode lowercases to an ASCII one (the
    Kelvin sign U+212A) is refused by the regex before the reserved check. *)
Definition lowerByte (c : nat) : nat :=
  if between 65 c 90 then c + 32 else c.

Definition reservedNames : list string :=
  ["master"; "admin"; "system"; "server"; "scrum"; "poker"].

Inductive nameError :=
| NameTooShort
| NameTooLong
| NameInvalidChars
| NameControlChars
| NameReserved.

(** [validatePlayerName]: [None] is a [nil] error. *)
Definition validatePlayerName (nm : string) : option nameError :=
  let s := trimSpace (bytesOf nm) in
  if Nat.ltb (length s) minNameLength then Some NameTooShort
  else if Nat.ltb maxNameLength (length s) then Some NameTooLong
  else if negb (validNameRegexMatch s) then Some NameInvalidChars
  else if hasControl s then Some NameControlChars
  else if existsb (fun r => bool_decide (List.map lowerByte s = bytesOf r)) reservedNames
  then Some NameReserved
  else None.

(* ------------------------------------------------------------------ *)
(** ** Go's strconv.ParseFloat(s, 64)

    Library code called by [calculateStatistics]. [special] and [readFloat]
    follow strconv/atof.go; the conversion proper (Eisel-Lemire, the decimal
    fallback, [atofHex]) returns the binary64 value nearest to the literal,
    ties to even, and a range error on overflow, which [roundBinary64]
    computes from the exact value of the literal. The exponent digits
    saturate as in [readFloat] ([if e < 10000 { e = e*10 + d }]). *)

Definition lower (c : nat) : nat := if between 65 c 90 then c + 32 else c.

Fixpoint commonPrefixLenIgnoreCase (s prefix : list nat) : nat :=
  match s, prefix with
  | c :: s', p :: p' => if Nat.eqb (lower c) p then S (commonPrefixLenIgnoreCase s' p') else O
  | _, _ => O
  end.

Definition infPrefix (neg : bool) (nsign : nat) (s : list nat) : option (float * nat) :=
  let n := commonPrefixLenIgnoreCase s (bytesOf "infinity") in
  let n := if Nat.ltb 3 n && Nat.ltb n 8 then 3 else n in
  if Nat.eqb n 3 || Nat.eqb n 8
  then Some (if neg then PrimFloat.neg_infinity else PrimFloat.infinity, (nsign + n)%nat)
  else None.

(** [special]: infinities and NaN, with the number of bytes consumed. *)
Definition special (s : list nat) : option (float * nat) :=
  match s with
  | [] => None
  | c :: s' =>
      if Nat.eqb c 43 then infPrefix false 1 s'
      else if Nat.eqb c 45 then infPrefix true 1 s'
      else if Nat.eqb c 105 || Nat.eqb c 73 then infPrefix false 0 s
      else if Nat.eqb c 110 || Nat.eqb c 78 then
        if Nat.eqb (commonPrefixLenIgnoreCase s (bytesOf "nan")) 3 then Some (PrimFloat.nan, 3%nat)
        else None
      else None
  end.

Definition isDigit (c : nat) : bool := between 48 c 57.
Definition isHexLetter (c : nat) : bool := between 97 (lower c) 102.

(** The mantissa loop of [readFloat]: all significant digits are kept
    ([mM]), [mNd] counts them, [mDp] is the position of the point. *)
Record mantState := mkMant {
  mM : Z; mNd : Z; mDp : Z; mSawDot : bool; mSawDigits : bool; mUnders : bool
}.

Fixpoint readMantissa (hex : bool) (s : list nat) (m : mantState) : mantState * list nat :=
  let base := if hex then 16%Z else 10%Z in
  match s with
  | [] => (m, [])
  | c :: s' =>
      if Nat.eqb c 95 then
        readMantissa hex s' (mkMant (mM m) (mNd m) (mDp m) (mSawDot m) (mSawDigits m) true)
      else if Nat.eqb c 46 then
        if mSawDot m then (m, s)
        else readMantissa hex s' (mkMant (mM m) (mNd m) (mNd m) true (mSawDigits m) (mUnders m))
      else if isDigit c then
        if Nat.eqb c 48 && Z.eqb (mNd m) 0 then
          readMantissa hex s' (mkMant (mM m) (mNd m) (Z.pred (mDp m)) (mSawDot m) true (mUnders m))
        else
          readMantissa hex s'
            (mkMant (mM m * base + Z.of_nat (c - 48)) (Z.succ (mNd m)) (mDp m)
                    (mSawDot m) true (mUnders m))
      else if hex && isHexLetter c then
        readMantissa hex s'
          (mkMant (mM m * 16 + Z.of_nat (lower c - 97 + 10)) (Z.succ (mNd m)) (mDp m)
                  (mSawDot m) true (mUnders m))
      else (m, s)
  end.

Fixpoint readExpDigits (s : list nat) (e : Z) (unders : bool) : Z * bool * list nat :=
  match s with
  | [] => (e, unders, [])
  | c :: s' =>
      if Nat.eqb c 95 then readExpDigits s' e true
      else if isDigit c then
        readExpDigits s' (if Z.ltb e 10000 then (e * 10 + Z.of_nat (c - 48))%Z else e) unders
      else (e, unders, s)
  end.

(** A syntactically valid literal: value [M * 10^x] (decimal) or
    [M * 2^x] (hexadecimal). *)
Record floatLit := mkLit { lNeg : bool; lHex : bool; lM : Z; lExp : Z; lUnders : bool }.

Definition readSign (s : list nat) : bool * list nat :=
  match s with
  | c :: s' => if Nat.eqb c 43 then (false, s') else if Nat.eqb c 45 then (true, s') else (false, s)
  | [] => (false, s)
  end.

(** [readFloat]: the literal and the unread rest, or [None] if not ok. *)
Definition readFloat (s : list nat) : option (floatLit * list nat) :=
  let '(neg, s1) := readSign s in
  let '(hex, s2) :=
    match s1 with
    | c0 :: c1 :: (_ :: _) as t => if Nat.eqb c0 48 && Nat.eqb (lower c1) 120 then (true, t) else (false, s1)
    | _ => (false, s1)
    end in
  let '(m, s3) := readMantissa hex s2 (mkMant 0 0 0 false false false) in
  if negb (mSawDigits m) then None else
  let dp := if mSawDot m then mDp m else mNd m in
  let scale := if hex then 4%Z else 1%Z in
  let dp := (dp * scale)%Z in
  let nd := (mNd m * scale)%Z in
  let expChar := if hex then 112 else 101 in
  let lit e unders rest := Some (mkLit neg hex (mM m) (dp + e - nd)%Z unders, rest) in
  match s3 with
  | c :: s4 =>
      if Nat.eqb (lower c) expChar then
        let '(esign, s5) := readSign s4 in
        match s4, s5 with
        | [], _ => None
        | _, d :: _ =>
            if isDigit d then
              let '(e, unders, rest) := readExpDigits s5 0 (mUnders m) in
              lit (if esign then (- e)%Z else e) unders rest
            else None
        | _, [] => None
        end
      else if hex then None
      else lit 0%Z (mUnders m) s3
  | [] => if hex then None else lit 0%Z (mUnders m) s3
  end.

Fixpoint usLoop (hex : bool) (s : list nat) (saw : nat) : bool :=
  (* saw: 0 beginning, 1 digit or prefix, 2 underscore, 3 other *)
  match s with
  | [] => negb (Nat.eqb saw 2)
  | c :: s' =>
      if isDigit c || (hex && isHexLetter c) then usLoop hex s' 1
      else if Nat.eqb c 95 then (if Nat.eqb saw 1 then usLoop hex s' 2 else false)
      else if Nat.eqb saw 2 then false
      else usLoop hex s' 3
  end.

(** [underscoreOK]. *)
Definition underscoreOK (s : list nat) : bool :=
  let s := snd (readSign s) in
  match s with
  | c0 :: c1 :: t =>
      if Nat.eqb c0 48 && (Nat.eqb (lower c1) 98 || Nat.eqb (lower c1) 111 || Nat.eqb (lower c1) 120)
      then usLoop (Nat.eqb (lower c1) 120) t 1
      else usLoop false s 0
  | _ => usLoop false s 0
  end.

(** [m * 2^e] split into numerator and denominator for [m / (d * 2^e)]. *)
Definition scaledDiv (num den e : Z) : Z * Z * Z :=
  if Z.leb 0 e then let D := (den * 2 ^ e)%Z in (num / D, num mod D, D)%Z
  else let N := (num * 2 ^ (- e))%Z in (N / den, N mod den, den)%Z.

(** Round to nearest, ties to even. *)
Definition roundHalfEven (q r D : Z) : Z :=
  if Z.ltb D (2 * r) || (Z.eqb (2 * r) D && Z.odd q) then Z.succ q else q.

(** The binary64 value nearest to [num / den] ([num >= 0], [den > 0]), with
    sign [neg]; [None] on overflow (ParseFloat's range error). *)
Definition roundBinary64 (neg : bool) (num den : Z) : option float :=
  let signed f := if neg then (- f)%float else f in
  if Z.eqb num 0 then Some (signed PrimFloat.zero) else
  let e0 := (Z.log2 num - Z.log2 den - 52)%Z in
  let e1 := if Z.ltb (fst (fst (scaledDiv num den e0))) (2 ^ 52) then Z.pred e0 else e0 in
  let e := Z.max e1 (-1074) in
  let '(q, r, D) := scaledDiv num den e in
  let q' := roundHalfEven q r D in
  let '(m, e') := if Z.eqb q' (2 ^ 53) then ((2 ^ 52)%Z, Z.succ e) else (q', e) in
  if Z.ltb 971 e' then None
  else match m with
       | Zpos p => Some (SF2Prim (S754_finite neg p e'))
       | _ => Some (signed PrimFloat.zero)
       end.

Definition litValue (l : floatLit) : option float :=
  let b := if lHex l then 2%Z else 10%Z in
  if Z.leb 0 (lExp l) then roundBinary64 (lNeg l) (lM l * b ^ lExp l) 1
  else roundBinary64 (lNeg l) (lM l) (b ^ (- lExp l)).

(** [strconv.ParseFloat(p, 64)] with [err == nil]. *)
Definition parseFloat (tok : string) : option float :=
  let s := bytesOf tok in
  match special s with
  | Some (f, n) => if Nat.eqb n (length s) then Some f else None
  | None =>
      match readFloat s with
      | Some (l, []) =>
          if lUnders l && negb (underscoreOK s) then None else litValue l
      | _ => None
      end
  end.

(* ------------------------------------------------------------------ *)
(** ** fmt.Sprintf("%.1f", x)

    The exact binary value is rounded to one decimal, ties to even
    ([decimal.Round] via [shouldRoundUp]); the sign is kept for negative
    values and negative zero; infinities print as "+Inf" / "-Inf". *)

Definition digitChar (d : Z) : string := String (ascii_of_nat (48 + Z.to_nat d)) EmptyString.

Fixpoint decimalDigits (fuel : nat) (n : Z) : string :=
  match fuel with
  | O => EmptyString
  | S fuel' =>
      if Z.ltb n 10 then digitChar n
      else decimalDigits fuel' (n / 10)%Z ++ digitChar (n mod 10)%Z
  end.

(** [strconv.Itoa] for [n >= 0]. *)
Definition decimalString (n : Z) : string := decimalDigits (S (Z.to_nat (Z.log2 n))) n.

Definition formatF1 (x : float) : string :=
  match Prim2SF x with
  | S754_nan => "NaN"
  | S754_infinity s => if s then "-Inf" else "+Inf"
  | S754_zero s => if s then "-0.0" else "0.0"
  | S754_finite s m e =>
      let '(q, r, D) := scaledDiv (Zpos m * 10) 1 (- e) in
      let q' := roundHalfEven q r D in
      (if s then "-" else EmptyString) ++ decimalString (q' / 10)%Z ++ "." ++ digitChar (q' mod 10)%Z
  end.

(* ------------------------------------------------------------------ *)
(** ** sort.Float64s

    [sort.Float64s(x)] sorts with Go's pattern-defeating quicksort
    ([sort/zsortinterface.go] since Go 1.19; from Go 1.22 it calls
    [slices.Sort], whose [zsortordered.go] is the same algorithm on the
    slice itself): [pdqsort(data, 0, n, bits.Len(uint(n)))]. The functions
    below follow the source one by one on the slice as a list updated by
    index; each loop is a recursion with enough fuel for its bound. *)

Local Open Scope list_scope.
Local Open Scope nat_scope.

Definition float64Less (x y : float) : bool :=
  PrimFloat.ltb x y || (PrimFloat.is_nan x && negb (PrimFloat.is_nan y)).

(** [data[i]]; every index the sort reads is in range. *)
Definition at_ (l : list float) (i : nat) : float := default PrimFloat.zero (l !! i).

(** [data.Less(i, j)]. *)
Definition less (l : list float) (i j : nat) : bool := float64Less (at_ l i) (at_ l j).

(** [data.Swap(i, j)] ([data[i], data[j] = data[j], data[i]]); the sort only
    swaps indices in range. *)
Definition swap (l : list float) (i j : nat) : list float :=
  match l !! i, l !! j with
  | Some x, Some y => <[i := y]> (<[j := x]> l)
  | _, _ => l
  end.

(** [insertionSort(data, a, b)]:
    [for i := a + 1; i < b; i++ { for j := i; j > a && data.Less(j, j-1); j-- { data.Swap(j, j-1) } }].
    The inner loop runs at most [i - a] times, the outer one [b - a - 1]. *)
Fixpoint insertionInner (fuel : nat) (l : list float) (a j : nat) : list float :=
  match fuel with
  | O => l
  | S f => if (a <? j) && less l j (j - 1) then insertionInner f (swap l j (j - 1)) a (j - 1) else l
  end.

Fixpoint insertionOuter (fuel : nat) (l : list float) (a b i : nat) : list float :=
  match fuel with
  | O => l
  | S f => if i <? b then insertionOuter f (insertionInner (i - a) l a i) a b (S i) else l
  end.

Definition insertionSort (l : list float) (a b : nat) : list float :=
  insertionOuter (b - a) l a b (S a).

(** [siftDown(data, lo, hi, first)]: [root] grows at each step, so [hi]
    steps suffice. *)
Fixpoint siftDown (fuel : nat) (l : list float) (root hi first : nat) : list float :=
  match fuel with
  | O => l
  | S f =>
      let child := 2 * root + 1 in
      if hi <=? child then l else
      let child := if (S child <? hi) && less l (first + child) (first + S child)
                   then S child else child in
      if negb (less l (first + root) (first + child)) then l else
      siftDown f (swap l (first + root) (first + child)) child hi first
  end.

(** [for i := (hi - 1) / 2; i >= 0; i-- { siftDown(data, i, hi, first) }] *)
Fixpoint heapify (l : list float) (i hi first : nat) : list float :=
  let l := siftDown hi l i hi first in
  match i with O => l | S i' => heapify l i' hi first end.

(** [for i := hi - 1; i >= 0; i-- { data.Swap(first, first+i); siftDown(data, lo, i, first) }] *)
Fixpoint heapPop (l : list float) (i first : nat) : list float :=
  let l := siftDown i (swap l first (first + i)) 0 i first in
  match i with O => l | S i' => heapPop l i' first end.

(** [heapSort(data, a, b)] ([first = a], [lo = 0], [hi = b - a]; called with
    [b - a > 12]). *)
Definition heapSort (l : list float) (a b : nat) : list float :=
  let hi := b - a in
  heapPop (heapify l (Nat.div (hi - 1) 2) hi a) (hi - 1) a.

(** [xorshift]: a [uint64] with [Next]: [r ^= r << 13; r ^= r >> 7; r ^= r << 17]. *)
Definition wrap64 (z : Z) : Z := Z.land z (Z.ones 64).
Definition xorshiftNext (r : Z) : Z :=
  let r := Z.lxor r (wrap64 (Z.shiftl r 13)) in
  let r := Z.lxor r (Z.shiftr r 7) in
  Z.lxor r (wrap64 (Z.shiftl r 17)).

(** [bits.Len(uint(n))]. *)
Definition bitsLen (n : nat) : nat := match n with O => O | _ => S (Nat.log2 n) end.

(** [breakPatterns(data, a, b)]: [random := xorshift(length)],
    [modulus := nextPowerOfTwo(length)] ([1 << bits.Len(uint(length))]),
    [idx := a + (length/4)*2 - 1], then three swaps
    [data.Swap(idx-1+i, a+other)] with
    [other := int(uint(random.Next()) & (modulus - 1))], reduced by [length]
    if it is not below it. *)
Fixpoint breakLoop (k : nat) (l : list float) (r : Z) (a len modulus idx i : nat)
    : list float :=
  match k with
  | O => l
  | S k' =>
      let r := xorshiftNext r in
      let other := Z.to_nat (Z.land r (Z.of_nat modulus - 1)) in
      let other := if len <=? other then other - len else other in
      breakLoop k' (swap l (idx - 1 + i) (a + other)) r a len modulus idx (S i)
  end.

Definition breakPatterns (l : list float) (a b : nat) : list float :=
  let len := b - a in
  if 8 <=? len then
    breakLoop 3 l (Z.of_nat len) a len (2 ^ bitsLen len) (a + (Nat.div len 4) * 2 - 1) 0
  else l.

Inductive sortedHint := UnknownHint | IncreasingHint | DecreasingHint.

(** [order2], [median], [medianAdjacent], with the [swaps] counter
    threaded through. *)
Definition order2 (l : list float) (a b swaps : nat) : nat * nat * nat :=
  if less l b a then (b, a, S swaps) else (a, b, swaps).

Definition median (l : list float) (a b c swaps : nat) : nat * nat :=
  let '(a, b, swaps) := order2 l a b swaps in
  let '(b, c, swaps) := order2 l b c swaps in
  let '(a, b, swaps) := order2 l a b swaps in
  (b, swaps).

Definition medianAdjacent (l : list float) (a swaps : nat) : nat * nat :=
  median l (a - 1) a (S a) swaps.

(** [choosePivot(data, a, b)]: static pivot below 8 elements, median of
    three below [shortestNinther = 50], Tukey's ninther above; the hint is
    increasing for no swap, decreasing for [maxSwaps = 12]. *)
Definition choosePivot (l : list float) (a b : nat) : nat * sortedHint :=
  let n := b - a in
  let i := a + Nat.div n 4 * 1 in
  let j := a + Nat.div n 4 * 2 in
  let k := a + Nat.div n 4 * 3 in
  let '(j, swaps) :=
    if 8 <=? n then
      let '(i, j, k, swaps) :=
        if 50 <=? n then
          let '(i, s1) := medianAdjacent l i 0 in
          let '(j, s2) := medianAdjacent l j s1 in
          let '(k, s3) := medianAdjacent l k s2 in
          (i, j, k, s3)
        else (i, j, k, 0) in
      median l i j k swaps
    else (j, 0) in
  (j, if Nat.eqb swaps 0 then IncreasingHint
      else if Nat.eqb swaps 12 then DecreasingHint else UnknownHint).

(** [reverseRange(data, a, b)]. *)
Fixpoint reverseLoop (fuel : nat) (l : list float) (i j : nat) : list float :=
  match fuel with
  | O => l
  | S f => if i <? j then reverseLoop f (swap l i j) (S i) (j - 1) else l
  end.

Definition reverseRange (l : list float) (a b : nat) : list float :=
  reverseLoop (b - a) l a (b - 1).

(** [partialInsertionSort(data, a, b)] ([maxSteps = 5],
    [shortestShifting = 50]); it returns whether [data[a:b]] ended up sorted,
    and the slice it leaves (it may have shifted elements either way). *)
Fixpoint scanSorted (fuel : nat) (l : list float) (i b : nat) : nat :=
  match fuel with
  | O => i
  | S f => if (i <? b) && negb (less l i (i - 1)) then scanSorted f l (S i) b else i
  end.

(** [for j := i - 1; j >= 1; j-- { if !data.Less(j, j-1) { break }; data.Swap(j, j-1) }] *)
Fixpoint shiftLeft (fuel : nat) (l : list float) (j : nat) : list float :=
  match fuel with
  | O => l
  | S f =>
      if 1 <=? j then
        if negb (less l j (j - 1)) then l else shiftLeft f (swap l j (j - 1)) (j - 1)
      else l
  end.

(** [for j := i + 1; j < b; j++ { if !data.Less(j, j-1) { break }; data.Swap(j, j-1) }] *)
Fixpoint shiftRight (fuel : nat) (l : list float) (j b : nat) : list float :=
  match fuel with
  | O => l
  | S f =>
      if j <? b then
        if negb (less l j (j - 1)) then l else shiftRight f (swap l j (j - 1)) (S j) b
      else l
  end.

Fixpoint partialSteps (steps : nat) (l : list float) (a b i : nat) : bool * list float :=
  match steps with
  | O => (false, l)
  | S st =>
      let i := scanSorted (b - i) l i b in
      if Nat.eqb i b then (true, l)
      else if b - a <? 50 then (false, l)
      else
        let l := swap l i (i - 1) in
        let l := if 2 <=? i - a then shiftLeft (i - 1) l (i - 1) else l in
        let l := if 2 <=? b - i then shiftRight (b - S i) l (S i) b else l in
        partialSteps st l a b i
  end.

Definition partialInsertionSort (l : list float) (a b : nat) : bool * list float :=
  partialSteps 5 l a b (S a).

(** The two scans of [partition]:
    [for i <= j && data.Less(i, a) { i++ }] and
    [for i <= j && !data.Less(j, a) { j-- }]. *)
Fixpoint scanLess (fuel : nat) (l : list float) (a i j : nat) : nat :=
  match fuel with
  | O => i
  | S f => if (i <=? j) && less l i a then scanLess f l a (S i) j else i
  end.

Fixpoint scanNotLess (fuel : nat) (l : list float) (a i j : nat) : nat :=
  match fuel with
  | O => j
  | S f => if (i <=? j) && negb (less l j a) then scanNotLess f l a i (j - 1) else j
  end.

(** The [for] loop of [partition], from [i], [j]; it returns the slice and
    [j] at the [break]. *)
Fixpoint partitionLoop (fuel : nat) (l : list float) (a i j : nat) : list float * nat :=
  match fuel with
  | O => (l, j)
  | S f =>
      let i := scanLess (S j - i) l a i j in
      let j := scanNotLess (S j - i) l a i j in
      if j <? i then (l, j) else partitionLoop f (swap l i j) a (S i) (j - 1)
  end.

(** [partition(data, a, b, pivot)]: returns [newpivot],
    [alreadyPartitioned] and the slice. *)
Definition partition (l : list float) (a b pivot : nat) : nat * bool * list float :=
  let l := swap l a pivot in
  let i := scanLess (b - a) l a (S a) (b - 1) in
  let j := scanNotLess (b - a) l a i (b - 1) in
  if j <? i then (j, true, swap l j a)
  else
    let '(l, j) := partitionLoop (b - a) (swap l i j) a (S i) (j - 1) in
    (j, false, swap l j a).

(** The scans of [partitionEqual]:
    [for i <= j && !data.Less(a, i) { i++ }] and
    [for i <= j && data.Less(a, j) { j-- }]. *)
Fixpoint scanNotGreater (fuel : nat) (l : list float) (a i j : nat) : nat :=
  match fuel with
  | O => i
  | S f => if (i <=? j) && negb (less l a i) then scanNotGreater f l a (S i) j else i
  end.

Fixpoint scanGreater (fuel : nat) (l : list float) (a i j : nat) : nat :=
  match fuel with
  | O => j
  | S f => if (i <=? j) && less l a j then scanGreater f l a i (j - 1) else j
  end.

Fixpoint partitionEqualLoop (fuel : nat) (l : list float) (a i j : nat) : list float * nat :=
  match fuel with
  | O => (l, i)
  | S f =>
      let i' := scanNotGreater (S j - i) l a i j in
      let j := scanGreater (S j - i') l a i' j in
      if j <? i' then (l, i') else partitionEqualLoop f (swap l i' j) a (S i') (j - 1)
  end.

(** [partitionEqual(data, a, b, pivot)]: returns the slice and [newpivot]. *)
Definition partitionEqual (l : list float) (a b pivot : nat) : list float * nat :=
  partitionEqualLoop (b - a) (swap l a pivot) a (S a) (b - 1).

(** [pdqsort(data, a, b, limit)] ([maxInsertion = 12]). The [for] loop and
    the recursive call on the shorter side share one fuel argument: both
    work on a strictly shorter range, so [b - a + 1] suffices. *)
Fixpoint pdqsort (fuel : nat) (l : list float) (a b limit : nat)
    (wasBalanced wasPartitioned : bool) : list float :=
  match fuel with
  | O => l
  | S f =>
      let length := b - a in
      if length <=? 12 then insertionSort l a b
      else if Nat.eqb limit 0 then heapSort l a b
      else
        let '(l, limit) := if negb wasBalanced then (breakPatterns l a b, limit - 1)
                           else (l, limit) in
        let '(pivot, hint) := choosePivot l a b in
        let '(l, pivot, hint) :=
          match hint with
          | DecreasingHint => (reverseRange l a b, (b - 1) - (pivot - a), IncreasingHint)
          | _ => (l, pivot, hint)
          end in
        let '(done, l) :=
          match hint with
          | IncreasingHint =>
              if wasBalanced && wasPartitioned then partialInsertionSort l a b else (false, l)
          | _ => (false, l)
          end in
        if done then l
        else if (0 <? a) && negb (less l (a - 1) pivot) then
          let '(l, mid) := partitionEqual l a b pivot in
          pdqsort f l mid b limit wasBalanced wasPartitioned
        else
          let '(mid, alreadyPartitioned, l) := partition l a b pivot in
          let leftLen := mid - a in
          let rightLen := b - mid in
          let balanceThreshold := Nat.div length 8 in
          if leftLen <? rightLen then
            let l := pdqsort f l a mid limit true true in
            pdqsort f l (S mid) b limit (balanceThreshold <=? leftLen) alreadyPartitioned
          else
            let l := pdqsort f l (S mid) b limit true true in
            pdqsort f l a mid limit (balanceThreshold <=? rightLen) alreadyPartitioned
  end.

(** [sort.Float64s(x)]: [pdqsort(data, 0, n, bits.Len(uint(n)))]. *)
Definition sortFloat64s (l : list float) : list float :=
  let n := length l in
  pdqsort (S n) l 0 n (bitsLen n) true true.

Local Open Scope string_scope.

(* ------------------------------------------------------------------ *)
(** ** calculateStatistics (master.go, player_test.go) *)

Definition floatOfNat (n : nat) : float := of_uint63 (Uint63.of_Z (Z.of_nat n)).

(** [distribution[p]++] over the points, in order. *)
Definition distributionOf (ps : list string) : gmap string nat :=
  fold_left (fun d p => <[p := S (default 0%nat (d !! p))]> d) ps ∅.

(** The values of the tokens [ParseFloat] accepts, in input order. *)
Definition numericPoints (ps : list string) : list float := omap parseFloat ps.

(** [sum := 0.0; for _, num := range numericPoints { sum += num }]. *)
Definition sumFloats (l : list float) : float :=
  fold_left (fun acc x => (acc + x)%float) l PrimFloat.zero.

Definition averageOf (nums : list float) : float :=
  match nums with
  | [] => PrimFloat.zero
  | _ => (sumFloats nums / floatOfNat (length nums))%float
  end.

Definition medianOf (nums : list float) : string :=
  match nums with
  | [] => "N/A"
  | _ =>
      let s := sortFloat64s nums in
      let n := length s in
      let mid := Nat.div n 2 in
      let at_ i := default PrimFloat.zero (s !! i) in
      if Nat.even n then formatF1 ((at_ (mid - 1)%nat + at_ mid) / PrimFloat.two)%float
      else formatF1 (at_ mid)
  end.

Definition calculateStatistics (ps : list string) : float * string * gmap string nat :=
  let nums := numericPoints ps in
  (averageOf nums, medianOf nums, distributionOf ps).

(* ------------------------------------------------------------------ *)
(** ** player_test.go: connectionLimitMiddleware

    [connectionCount] is an [atomic.Int32]; [connectionsByIP] a [sync.Map]
    from the client IP (the host part of [s.RemoteAddr()]) to a shared
    [*atomic.Int32]. Each session runs the middleware in its own goroutine,
    so its atomic operations interleave with those of other sessions; a
    session is a program counter that advances by one atomic operation. *)

Definition maxConnections : Z := 100.
Definition maxConnectionsPerIP : Z := 10.

Record connCounters := mkCounters {
  connectionCount : Z;
  connectionsByIP : gmap string Z
}.

Definition initialCounters : connCounters := mkCounters 0 ∅.

Inductive connPc :=
| ConnStart        (* nothing done yet *)
| ConnPassedGlobal (* [connectionCount.Load() >= maxConnections] was false *)
| ConnCounted      (* [connectionCount.Add(1)] *)
| ConnStored       (* [connectionsByIP.LoadOrStore(clientIP, &atomic.Int32{})] *)
| ConnPassedIP     (* [ipCount.Load() >= maxConnectionsPerIP] was false *)
| ConnRejectedIP   (* [wish.Fatalln(s, "Too many connections ...")]; return *)
| ConnInHandler    (* [ipCount.Add(1)]; [h(s)] running *)
| ConnIPReleased   (* [h(s)] returned; deferred [ipCount.Add(-1)] *)
| ConnRefused      (* [wish.Fatalln(s, "Server at capacity ...")]; return *)
| ConnClosed.      (* deferred [connectionCount.Add(-1)]; returned *)

Record connSession := mkConn {
  clientIP : string;
  cPc : connPc
}.

(** [ipCount.Load()]: the counter of [ip] ([0] for the fresh counter that
    [LoadOrStore] put in place). *)
Definition ipCountOf (c : connCounters) (ip : string) : Z :=
  default 0%Z (connectionsByIP c !! ip).

Definition addIP (ip : string) (d : Z) (c : connCounters) : connCounters :=
  mkCounters (connectionCount c) (<[ip := (ipCountOf c ip + d)%Z]> (connectionsByIP c)).

Definition addGlobal (d : Z) (c : connCounters) : connCounters :=
  mkCounters (connectionCount c + d)%Z (connectionsByIP c).

(** One atomic operation of one session. *)
Definition connStep (c : connCounters) (s : connSession) : connCounters * connSession :=
  let ip := clientIP s in
  match cPc s with
  | ConnStart =>
      if (maxConnections <=? connectionCount c)%Z then (c, mkConn ip ConnRefused)
      else (c, mkConn ip ConnPassedGlobal)
  | ConnPassedGlobal => (addGlobal 1 c, mkConn ip ConnCounted)
  | ConnCounted =>
      match connectionsByIP c !! ip with
      | Some _ => (c, mkConn ip ConnStored)
      | None => (mkCounters (connectionCount c) (<[ip := 0%Z]> (connectionsByIP c)),
                 mkConn ip ConnStored)
      end
  | ConnStored =>
      if (maxConnectionsPerIP <=? ipCountOf c ip)%Z then (c, mkConn ip ConnRejectedIP)
      else (c, mkConn ip ConnPassedIP)
  | ConnPassedIP => (addIP ip 1 c, mkConn ip ConnInHandler)
  | ConnInHandler => (addIP ip (-1) c, mkConn ip ConnIPReleased)
  | ConnIPReleased | ConnRejectedIP => (addGlobal (-1) c, mkConn ip ConnClosed)
  | ConnRefused | ConnClosed => (c, s)
  end.

(** Runs a schedule: each entry picks the session that takes its next step. *)
Fixpoint connRun (c : connCounters) (ss : list connSession) (sched : list nat)
    : connCounters * list connSession :=
  match sched with
  | [] => (c, ss)
  | i :: sched' =>
      match ss !! i with
      | Some s => let '(c', s') := connStep c s in connRun c' (<[i := s']> ss) sched'
      | None => connRun c ss sched'
      end
  end.

(** The sessions that incremented [connectionCount] and have not yet run
    its deferred decrement, and those that hold their IP's counter. *)
Definition holdsGlobal (pc : connPc) : bool :=
  match pc with
  | ConnCounted | ConnStored | ConnPassedIP | ConnRejectedIP
  | ConnInHandler | ConnIPReleased => true
  | _ => false
  end.

Definition holdsIP (pc : connPc) : bool :=
  match pc with ConnInHandler => true | _ => false end.

Definition globalHolders (ss : list connSession) : Z :=
  Z.of_nat (length (List.filter (fun s => holdsGlobal (cPc s)) ss)).

Definition ipHolders (ss : list connSession) (ip : string) : Z :=
  Z.of_nat (length (List.filter (fun s => holdsIP (cPc s) && String.eqb (clientIP s) ip) ss)).

(** Admitted sessions: those running [h(s)]. *)
Definition inHandler (ss : list connSession) : nat :=
  length (List.filter (fun s => holdsIP (cPc s)) ss).

(** Client addresses of the sessions in the connection-limit scenarios. *)
Definition ipPool : list string :=
  ["198.51.100.1"; "198.51.100.2"; "198.51.100.3"; "198.51.100.4"; "198.51.100.5";
   "198.51.100.6"; "198.51.100.7"; "198.51.100.8"; "198.51.100.9"; "198.51.100.10"].

(** 99 sessions spread over ten addresses, at most ten per address. *)
Definition busySessions : list connSession :=
  (fun k => mkConn (default EmptyString (ipPool !! (k mod 10)%nat)) ConnStart) <$> seq 0 99.

(** The five atomic steps that take session [i] from [ConnStart] into its
    handler, run back to back. *)
Definition admitOne (i : nat) : list nat := [i; i; i; i; i].

Definition busySchedule : list nat := List.concat (admitOne <$> seq 0 99).

Definition raceSessions : list connSession :=
  (busySessions ++ [mkConn "203.0.113.7" ConnStart; mkConn "203.0.113.8" ConnStart])%list.

(** Eleven sessions from one address. *)
Definition sameIPSessions : list connSession := repeat (mkConn "198.51.100.1" ConnStart) 11.

Definition nineSchedule : list nat := List.concat (admitOne <$> seq 0 9).

(** The counters match the sessions: [connectionCount] counts the sessions
    between their increment and its deferred decrement, and each IP's
    counter the sessions of that IP running the handler. *)
Definition connInv (c : connCounters) (ss : list connSession) : Prop :=
  connectionCount c = globalHolders ss /\ forall ip, ipCountOf c ip = ipHolders ss ip.

(* ------------------------------------------------------------------ *)
(** ** Rendering: showFinalVotes, masterView.View, playerView.showResults,
    playerView.View

    The lipgloss styles, the progress bar, the help and list widgets are
    external; they appear as section variables. Go's "\n" is [nl]. *)

Definition nl : string := String "010"%char EmptyString.

(** Concatenation of the pieces a [strings.Builder] receives. *)
Definition concatStrings (l : list string) : string := fold_right String.append EmptyString l.

(** [sort.Strings] (byte-wise order). The callers sort map keys, which are
    distinct, so the sorted order does not depend on the algorithm. *)
Fixpoint insertString (x : string) (l : list string) : list string :=
  match l with
  | [] => [x]
  | y :: l' => if String.ltb y x then y :: insertString x l' else x :: l
  end.

Definition sortStrings (l : list string) : list string := fold_right insertString [] l.

(** [names := keys of m; sort.Strings(names)]. *)
Definition sortedKeys {A} (m : gmap string A) : list string := sortStrings (elements (dom m)).


Section Rendering.
(** [labelStyle.Render], [countStyle.Render], [percentStyle.Render]. *)
Variables labelRender countRender percentRender : string -> string.
(** [p.ViewAs(percentage)] of the 50-column progress bar. *)
Variable progressViewAs : float -> string.
(** [m.help.View(m.keys)] for the help width. *)
Variable helpView : Z -> string.
(** [lipgloss.NewStyle().Padding(1).Render]. *)
Variable padRender : string -> string.
(** [p.list.View()]. *)
Variable listView : listModel -> string.

(** One entry of the distribution: its line and its progress bar. *)
Definition distributionLine (distribution : gmap string nat) (voted : nat)
    (pointVal : string) : string :=
  let count := default 0%nat (distribution !! pointVal) in
  let percentage := (floatOfNat count / floatOfNat voted)%float in
  labelRender (pointVal ++ ":") ++ " " ++
  countRender (decimalString (Z.of_nat count) ++ " votes") ++ " " ++
  percentRender ("(" ++ formatF1 (percentage * 100)%float ++ "%)") ++ nl ++
  progressViewAs percentage ++ nl ++ nl.

(** [showFinalVotes(points, voted)]. *)
Definition showFinalVotes (points : list string) (voted : nat) : string :=
  let '(avg, median, distribution) := calculateStatistics points in
  nl ++ "📊 Voting Statistics:" ++ nl ++
  (if PrimFloat.ltb PrimFloat.zero avg then "Average: " ++ formatF1 avg ++ nl else EmptyString) ++
  "Median: " ++ median ++ nl ++
  "Distribution:" ++ nl ++
  concatStrings (List.map (distributionLine distribution voted) (sortedKeys distribution)).




(** One line of [showResults]. *)
Definition resultLine (st : gameState) (nm : string) : string :=
  match players st !! nm with
  | Some player =>
      if selected player then "• " ++ nm ++ ": " ++ points player ++ nl
      else "• " ++ nm ++ ": no vote" ++ nl
  | None => EmptyString
  end.

(** The points of the players that voted, in name order. *)
Definition votedPoints (st : gameState) : list string :=
  omap (fun nm => match players st !! nm with
                  | Some player => if selected player then Some (points player) else None
                  | None => None
                  end) (sortedKeys (players st)).

(** [playerView.showResults], under its own [RLock]. *)
Definition showResults (st : gameState) : string :=
  let pts := votedPoints st in
  "📊 Voting Results:" ++ nl ++ nl ++ "Player Votes:" ++ nl ++
  concatStrings (List.map (resultLine st) (sortedKeys (players st))) ++
  (if Nat.ltb 0 (length pts) then showFinalVotes pts (length pts) else EmptyString).

(** [playerView.View]: [revealed] is read from [stFlag] under one [RLock];
    [showResults] then reads [stResults] under a second one. *)
Definition playerView_View (stFlag stResults : gameState) (p : playerView) : string :=
  padRender ("🎲 Showdown - Player: " ++ name p ++ nl ++ nl ++
    (if revealed stFlag then showResults stResults
     else listView (list_ p) ++ nl ++ nl ++
          (if String.eqb (pvSelected p) EmptyString then EmptyString
           else "Selected: " ++ pvSelected p ++ nl)) ++
    nl ++ "Press q to quit").
End Rendering.

(* ------------------------------------------------------------------ *)
(** ** Auxiliary definitions of the properties *)

(** The master (session 1) presses the quit key twice; a new master
    (session 2) connects between the two key messages; the old program then
    receives its [QuitMsg] and a third authorized client (session 3)
    connects. *)
Definition doubleQuitSchedule : list serverEvent :=
  [Connect 1 true true; MasterKey 1 "q"; Connect 2 true true; MasterKey 1 "q";
   SessionEnd 1; Connect 3 true true].

(** The same clients when the old program ends before session 2 connects. *)
Definition sequentialQuitSchedule : list serverEvent :=
  [Connect 1 true true; MasterKey 1 "q"; SessionEnd 1; Connect 2 true true;
   Connect 3 true true].

(** The master program at time 0, no timer running. *)
Definition timerRuntime0 : masterRuntime :=
  mkRuntime initialState newMasterView 0 [].

(** Two sessions entering the same name. *)
Definition aliceA : regAttempt := mkAttempt (mkNameInput "alice" None 1) RegStart.
Definition aliceB : regAttempt := mkAttempt (mkNameInput "alice" None 2) RegStart.

Local Open Scope list_scope.
Local Open Scope nat_scope.

Definition lexltb (x y : Z * Z * Z) : bool :=
  let '(a1, b1, c1) := x in let '(a2, b2, c2) := y in
  (a1 <? a2)%Z || ((a1 =? a2)%Z && ((b1 <? b2)%Z || ((b1 =? b2)%Z && (c1 <? c2)%Z))).

Definition rank (x : float) : Z * Z * Z :=
  match Prim2SF x with
  | S754_nan => (0, 0, 0)%Z
  | S754_infinity true => (1, 0, 0)%Z
  | S754_finite true m e => (2, - e, - Zpos m)%Z
  | S754_zero _ => (3, 0, 0)%Z
  | S754_finite false m e => (4, e, Zpos m)%Z
  | S754_infinity false => (5, 0, 0)%Z
  end.

(** Segments [data[a:b]] *)
Definition seg (l : list float) (a b : nat) : list float := take (b - a) (drop a l).

(** [l'] is [l] with [data[a:b]] permuted and the rest unchanged. *)
Definition SegPerm (a b : nat) (l l' : list float) : Prop :=
  length l' = length l /\
  (forall k, k < a \/ b <= k -> l' !! k = l !! k) /\
  seg l' a b ≡ₚ seg l a b.

(** A property of every element of [data[a:b]]. *)
Definition AllSeg (P : float -> Prop) (l : list float) (a b : nat) : Prop :=
  forall k, a <= k < b -> P (at_ l k).

(** [data[a:b]] is sorted: no element is less than the one before it. *)
Definition SortedSeg (l : list float) (a b : nat) : Prop :=
  forall k, a < k < b -> less l k (k - 1) = false.

(** Invariant of the insertion loops: the element that started at [j0] is
    at [j]; [data[a:j]] and [data[j+1:j0+1]] are sorted. *)
Definition InsInv (a j0 : nat) (l : list float) (j : nat) : Prop :=
  SortedSeg l a j /\ SortedSeg l (S j) (S j0) /\
  (j < j0 -> less l j (S j) = true /\ (a < j -> less l (S j) (j - 1) = false)).

(** The heap of [heapSort] is [data[first:first+hi]]; node [r] has the
    children [2r+1] and [2r+2]. *)
Definition HeapAt (l : list float) (first hi r : nat) : Prop :=
  forall c, c < hi -> (c = 2 * r + 1 \/ c = 2 * r + 2) -> less l (first + r) (first + c) = false.

Definition Heap (l : list float) (first hi from : nat) : Prop :=
  forall r, from <= r -> HeapAt l first hi r.

Definition SiftInv (l : list float) (first hi from root : nat) : Prop :=
  from <= root /\ (forall r, from <= r -> r <> root -> HeapAt l first hi r) /\
  (root <> from -> from <= (root - 1) / 2 /\
     forall c, c < hi -> (c = 2 * root + 1 \/ c = 2 * root + 2) ->
       less l (first + (root - 1) / 2) (first + c) = false).

Definition PopInv (l : list float) (first n i : nat) : Prop :=
  Heap l first (S i) 0 /\ SortedSeg l (first + S i) (first + n) /\
  forall m, first + S i <= m < first + n ->
    AllSeg (fun x => float64Less (at_ l m) x = false) l first (first + S i).

(** Elements before [a] are not greater than those of [data[a:b]]. *)
Definition LB (l : list float) (a b : nat) : Prop :=
  0 < a -> AllSeg (fun x => float64Less x (at_ l (a - 1)) = false) l a b.

(** The state of [partition]'s loop: [data[a+1:i]] is less than the pivot
    at [a], [data[j+1:b]] is not. *)
Definition PInv (l : list float) (a b i j : nat) : Prop :=
  a < i /\ i <= S j /\ j < b /\
  (forall k, a < k < i -> less l k a = true) /\ (forall k, j < k < b -> less l k a = false).

Definition Partitioned (l : list float) (a b mid : nat) : Prop :=
  a <= mid < b /\
  AllSeg (fun x => float64Less (at_ l mid) x = false) l a mid /\
  AllSeg (fun x => float64Less x (at_ l mid) = false) l (S mid) b.

(** The state of [partitionEqual]'s loop: [data[a+1:i]] is not greater than
    the pivot at [a], [data[j+1:b]] is greater. *)
Definition EInv (l : list float) (a b i j : nat) : Prop :=
  a < i /\ i <= S j /\ j < b /\
  (forall k, a < k < i -> less l a k = false) /\ (forall k, j < k < b -> less l a k = true).

Local Open Scope string_scope.

(** [needle] occurs in [hay]. *)
Fixpoint isInfix (needle hay : string) : bool :=
  String.prefix needle hay ||
  match hay with
  | EmptyString => false
  | String _ hay' => isInfix needle hay'
  end.


Definition plainPlayerView (stFlag stResults : gameState) (p : playerView) : string :=
  playerView_View id id id (fun _ => EmptyString) id (fun _ => EmptyString) stFlag stResults p.


(** A revealed round; Alice's and Bob's player views; a list widget that
    keeps its selection on enter. *)
Definition revealedRound : gameState :=
  mkGame (<["alice" := mkPlayer "5" 1 true]> (<["bob" := mkPlayer "3" 2 true]> ∅)) true None.

Definition aliceView : playerView := mkPlayerView "alice" initialList "5".
Definition bobView : playerView := mkPlayerView "bob" (mkList pointOptions 5) "3".
Definition listStay (l : listModel) (_ : playerMsg) : listModel * cmd := (l, CmdNone).

(** The master clears the round ([c]); then Bob votes "8" (both sections of
    his enter key). *)
Definition afterClear : gameState :=
  (masterUpdate 0 revealedRound newMasterView (MKey "c")).1.1.
Definition afterVote : gameState :=
  let '(s1, pc) := voteStep listStay afterClear bobView VoteStart in
  (voteStep listStay s1 bobView pc).1.

(** An entry of [state.players] as a vote: its points if it has voted. *)
Definition votedEntry (kv : string * playerState) : option string :=
  if selected kv.2 then Some (points kv.2) else None.

(* ================================================================== *)
(** * Properties *)

(* ------------------------------------------------------------------ *)
(** ** clearPlayerState *)

(** C8: after [clearPlayerState] the reveal flag is false; every entry keeps
    its session and has an empty vote with [selected = false]; no name is
    added or removed; the master connection is untouched; and clearing twice
    is clearing once. *)
Theorem clearPlayerState_spec (st : gameState) :
  revealed (clearPlayerState st) = false /\
  (forall nm, players (clearPlayerState st) !! nm =
     (fun p => mkPlayer EmptyString (session p) false) <$> (players st !! nm)) /\
  dom (players (clearPlayerState st)) = dom (players st) /\
  masterConn (clearPlayerState st) = masterConn st /\
  clearPlayerState (clearPlayerState st) = clearPlayerState st.
Proof.
  unfold clearPlayerState; simpl.
  split; [reflexivity |].
  split; [intros nm; apply lookup_fmap |].
  split; [apply dom_fmap_L |].
  split; [reflexivity |].
  f_equal. apply map_eq; intros nm.
  rewrite !lookup_fmap. destruct (players st !! nm); reflexivity.
Qed.

(* ------------------------------------------------------------------ *)
(** ** playerView.Update: the enter key *)

(** C10: pressing enter under a name that is not in [state.players] leaves
    the whole shared state unchanged (no entry created, no vote changed, the
    reveal flag untouched), whatever the list widget does. *)
Theorem playerUpdate_unknown_name
    (lu : listModel -> playerMsg -> listModel * cmd) (st : gameState) (p : playerView) :
  players st !! name p = None ->
  (playerUpdate lu st p (PKey "enter")).1.1 = st.
Proof.
  intros Hnone. unfold playerUpdate.
  destruct (revealed st); simpl.
  - reflexivity.
  - destruct (lu (list_ p) (PKey "enter")) as [l c]; simpl.
    rewrite Hnone. reflexivity.
Qed.

Lemma playerUpdate_unknown_name_witness :
  players (mkGame (<["alice" := mkPlayer "5" 1 true]> (<["bob" := mkPlayer EmptyString 2 false]> ∅))
             false (Some 0%nat)) !! "carol" = None /\
  (playerUpdate (fun l _ => (mkList (items l) 5, CmdNone))
     (mkGame (<["alice" := mkPlayer "5" 1 true]> (<["bob" := mkPlayer EmptyString 2 false]> ∅))
        false (Some 0%nat))
     (mkPlayerView "carol" initialList EmptyString) (PKey "enter")).1.1 =
  mkGame (<["alice" := mkPlayer "5" 1 true]> (<["bob" := mkPlayer EmptyString 2 false]> ∅))
    false (Some 0%nat).
Proof.
  assert (H : players (mkGame (<["alice" := mkPlayer "5" 1 true]>
                                 (<["bob" := mkPlayer EmptyString 2 false]> ∅))
                         false (Some 0%nat)) !! "carol" = None) by reflexivity.
  split; [exact H |].
  exact (playerUpdate_unknown_name (fun l _ => (mkList (items l) 5, CmdNone)) _
           (mkPlayerView "carol" initialList EmptyString) H).
Defined.

(** Run on its own, enter with the reveal flag set returns the model and
    the state unchanged with no command; with the flag clear, the entry of
    an existing player gets the list's selected item as its vote and
    [selected = true], its session is kept, and nothing else changes. *)
Lemma playerUpdate_enter
    (lu : listModel -> playerMsg -> listModel * cmd) (st : gameState) (p : playerView) :
  (revealed st = true ->
   playerUpdate lu st p (PKey "enter") = (st, p, CmdNone)) /\
  (revealed st = false -> forall pl, players st !! name p = Some pl ->
   (playerUpdate lu st p (PKey "enter")).1.1 =
     setPlayers (<[name p := mkPlayer
                    (default EmptyString (selectedItem (lu (list_ p) (PKey "enter")).1))
                    (session pl) true]> (players st)) st).
Proof.
  split.
  - intros Hrev. unfold playerUpdate. rewrite Hrev. destruct p; reflexivity.
  - intros Hrev pl Hpl. unfold playerUpdate. rewrite Hrev; simpl.
    destruct (lu (list_ p) (PKey "enter")) as [l c]; simpl.
    rewrite Hpl. reflexivity.
Qed.

(** The two sections of one vote, run back to back, do to the shared state
    exactly what [playerView.Update] does on enter. *)
Lemma voteSections_sequential lu st p :
  (voteStep lu (voteStep lu st p VoteStart).1 p (voteStep lu st p VoteStart).2).1 =
  (playerUpdate lu st p (PKey "enter")).1.1.
Proof.
  unfold voteStep, playerUpdate; simpl.
  destruct (revealed st); simpl; [reflexivity |].
  destruct (lu (list_ p) (PKey "enter")) as [l c]; simpl.
  destruct (players st !! name p); reflexivity.
Qed.

(** C2: the flag is read in one critical section and the vote written in
    another. Bob presses enter while the votes are hidden; his program reads
    [revealed = false]; the master presses "r"; Bob's program then records
    his vote although the votes are now revealed. Pressed after the reveal,
    enter is the no-op the claim describes. *)
Theorem vote_after_reveal_race :
  let lu := fun (l : listModel) (_ : playerMsg) => (l, CmdNone) in
  let p := mkPlayerView "bob" initialList EmptyString in
  let st0 := mkGame {["bob" := mkPlayer EmptyString 7 false]} false (Some 0%nat) in
  let st1 := (voteStep lu st0 p VoteStart).1 in
  let pc1 := (voteStep lu st0 p VoteStart).2 in
  let st2 := (masterUpdate 0 st1 newMasterView (MKey "r")).1.1 in
  let st3 := (voteStep lu st2 p pc1).1 in
  pc1 = VoteRead false /\
  revealed st2 = true /\
  st3 = mkGame {["bob" := mkPlayer "0.5" 7 true]} true (Some 0%nat) /\
  playerUpdate lu st2 p (PKey "enter") = (st2, p, CmdNone).
Proof. repeat split; vm_compute; reflexivity. Qed.

(* ------------------------------------------------------------------ *)
(** ** The reveal flag *)

Lemma keyMatches_singleton (k k' : string) :
  keyMatches k [k'] = true -> k = k'.
Proof.
  unfold keyMatches. rewrite bool_decide_eq_true. apply list_elem_of_singleton.
Qed.

(** Only [masterUpdate] writes the reveal flag. *)
Lemma playerUpdate_revealed lu st p msg :
  revealed (playerUpdate lu st p msg).1.1 = revealed st.
Proof.
  unfold playerUpdate.
  destruct (if negb (revealed st) then lu (list_ p) msg else (list_ p, CmdNone)) as [l c].
  destruct msg as [k | |]; simpl; try reflexivity.
  destruct (keyMatches k _); simpl; [reflexivity |].
  destruct (String.eqb k "enter"); simpl; [| reflexivity].
  destruct (negb (revealed st)); simpl; [| reflexivity].
  destruct (players st !! _); reflexivity.
Qed.

Lemma nameInputUpdate_revealed tu st v msg :
  revealed (nameInputUpdate tu st v msg).1 = revealed st.
Proof.
  unfold nameInputUpdate. destruct msg; simpl; try reflexivity.
  - destruct (String.eqb _ _); [reflexivity |].
    destruct (bool_decide _); reflexivity.
  - destruct (tu _ _); reflexivity.
Qed.

Lemma pokerHandler_revealed st s pty auth :
  revealed (pokerHandler st s pty auth).1 = revealed st.
Proof.
  unfold pokerHandler. destruct pty, auth; simpl; try reflexivity.
  destruct (masterConn st); reflexivity.
Qed.

Lemma sessionClose_revealed st s :
  revealed (sessionClose st s) = revealed st.
Proof.
  unfold sessionClose. destruct (masterConn st) as [m |]; [| reflexivity].
  destruct (Nat.eqb m s); reflexivity.
Qed.

(** The master's disconnect-all key "d" empties the players map while the
    votes are revealed, and the flag stays set. *)
Lemma disconnect_keeps_revealed :
  let st := mkGame {["alice" := mkPlayer "5" 1 true]} true (Some 0) in
  players (masterUpdate 0 st newMasterView (MKey "d")).1.1 = ∅ /\
  revealed (masterUpdate 0 st newMasterView (MKey "d")).1.1 = true.
Proof. split; reflexivity. Qed.

(** C4 (as the code has it): clear ("c") and starting a timer ("1", "3",
    "6") reset the votes and clear the reveal flag; disconnect-all ("d")
    empties the players map and leaves the flag as it was; the flag goes
    from false to true only on "r" or a timer expiry, and no other handler
    (player, name input, SSH handler, session close) writes it. *)
Theorem reveal_flag_transitions :
  (forall now st m,
     (masterUpdate now st m (MKey "c")).1.1 = clearPlayerState st /\
     revealed (masterUpdate now st m (MKey "c")).1.1 = false) /\
  (forall now st m k, k ∈ ["1"; "3"; "6"] ->
     (masterUpdate now st m (MKey k)).1.1 = clearPlayerState st /\
     revealed (masterUpdate now st m (MKey k)).1.1 = false) /\
  (forall now st m,
     players (masterUpdate now st m (MKey "d")).1.1 = ∅ /\
     revealed (masterUpdate now st m (MKey "d")).1.1 = revealed st) /\
  (forall now st m msg,
     revealed st = false -> revealed (masterUpdate now st m msg).1.1 = true ->
     msg = MKey "r" \/ msg = MTimerExpired) /\
  (forall lu st p msg, revealed (playerUpdate lu st p msg).1.1 = revealed st) /\
  (forall tu st v msg, revealed (nameInputUpdate tu st v msg).1 = revealed st) /\
  (forall st s pty auth, revealed (pokerHandler st s pty auth).1 = revealed st) /\
  (forall st s, revealed (sessionClose st s) = revealed st).
Proof.
  split; [intros; split; reflexivity |].
  split.
  { intros now st m k Hk.
    rewrite !elem_of_cons, elem_of_nil in Hk.
    destruct Hk as [-> | [-> | [-> | []]]]; split; reflexivity. }
  split; [intros; split; reflexivity |].
  split.
  { intros now st m msg Hf Ht. destruct msg as [k | w | |]; simpl in Ht.
    - destruct (keyMatches k quitKeys); simpl in Ht; [congruence |].
      destruct (keyMatches k ["r"]) eqn:Er.
      + left. f_equal. apply keyMatches_singleton; exact Er.
      + destruct (keyMatches k ["c"]); simpl in Ht; [discriminate |].
        destruct (keyMatches k ["d"]); simpl in Ht; [congruence |].
        destruct (keyMatches k ["1"; "3"; "6"]); simpl in Ht; [discriminate | congruence].
    - congruence.
    - congruence.
    - right; reflexivity. }
  split; [exact playerUpdate_revealed |].
  split; [exact nameInputUpdate_revealed |].
  split; [exact pokerHandler_revealed | exact sessionClose_revealed].
Qed.

Lemma reveal_flag_transitions_witness :
  "3" ∈ ["1"; "3"; "6"] /\
  revealed (masterUpdate 0 (mkGame {["alice" := mkPlayer "5" 1 true]} true None)
              newMasterView (MKey "3")).1.1 = false.
Proof.
  split; [set_solver |].
  apply (proj2 (proj1 (proj2 reveal_flag_transitions) 0%Z
           (mkGame {["alice" := mkPlayer "5" 1 true]} true None) newMasterView "3"
           ltac:(set_solver))).
Defined.

(* ------------------------------------------------------------------ *)
(** ** Countdown timers *)


(** Timer T1 (15s) is started at time 0 and T2 (30s) at time 10, which
    supersedes it on screen. T1's goroutine still wakes up at time 15 and
    its [timerExpiredMsg] reveals the votes, while T2 is still pending. *)
Lemma superseded_timer_reveals :
  rtRun timerRuntime0 [EvMsg 0 (MKey "1"); EvMsg 10 (MKey "3")] =
    Some (mkRuntime initialState (mkMasterView false None (Some 40%Z) 30 0) 10 [15%Z; 40%Z]) /\
  rtRun timerRuntime0 [EvMsg 0 (MKey "1"); EvMsg 10 (MKey "3"); EvFire 0] =
    Some (mkRuntime (setRevealed true initialState)
            (mkMasterView false None (Some 40%Z) 30 0) 15 [40%Z]).
Proof. split; vm_compute; reflexivity. Qed.

(** C3 (as the code has it): nothing cancels a timer. A message appends
    the deadline of the timer it starts (if any) to the pending ones and
    removes none; every pending timer that fires, superseded or not, sets
    the reveal flag. *)
Theorem timers_never_cancelled (w w' : masterRuntime) (e : rtEvent) :
  rtStep w e = Some w' ->
  match e with
  | EvMsg t msg =>
      pending w' = (pending w ++ startedTimers t (masterUpdate t (rtState w) (rtView w) msg).2)%list
  | EvFire i =>
      is_Some (pending w !! i) /\ revealed (rtState w') = true /\
      pending w' = delete i (pending w)
  end.
Proof.
  destruct e as [t msg | i]; simpl.
  - destruct (_ && _ && _); [| discriminate].
    destruct (masterUpdate t (rtState w) (rtView w) msg) as [[st' m'] c].
    intros H; injection H as <-. reflexivity.
  - destruct (pending w !! i) as [d |] eqn:Ed; [| discriminate].
    destruct (_ && _); [| discriminate].
    intros H; injection H as <-. simpl.
    split; [eauto |]. split; reflexivity.
Qed.

Lemma timers_never_cancelled_witness :
  let w := mkRuntime initialState (mkMasterView false None (Some 40%Z) 30 0) 10 [15%Z; 40%Z] in
  rtStep w (EvFire 0) =
    Some (mkRuntime (setRevealed true initialState)
            (mkMasterView false None (Some 40%Z) 30 0) 15 [40%Z]) /\
  (is_Some ([15%Z; 40%Z] !! 0%nat) /\ revealed (setRevealed true initialState) = true /\
   [40%Z] = delete 0%nat [15%Z; 40%Z]).
Proof.
  assert (H : rtStep (mkRuntime initialState (mkMasterView false None (Some 40%Z) 30 0) 10
                        [15%Z; 40%Z]) (EvFire 0) =
              Some (mkRuntime (setRevealed true initialState)
                      (mkMasterView false None (Some 40%Z) 30 0) 15 [40%Z]))
    by (vm_compute; reflexivity).
  split; [exact H |].
  exact (timers_never_cancelled _ _ (EvFire 0) H).
Defined.

(* ------------------------------------------------------------------ *)
(** ** The Scrum Master slot *)

Lemma masterUpdate_key_state now now' st m m' k :
  (masterUpdate now st m (MKey k)).1.1 = (masterUpdate now' st m' (MKey k)).1.1.
Proof. unfold masterUpdate. repeat case_match; reflexivity. Qed.

(** C1 (as the code has it): the quit key of a master sets
    [state.masterConn = nil] whoever holds the slot. A second quit key
    queued in the old master's program, handled after a new master took the
    slot, releases the new master's slot; a third authorized client is then
    admitted while the second still runs the master view, so two master
    views are live. When the old program ends before the second client
    connects, the third client is refused. *)
Theorem master_slot_released_by_old_master :
  (exists w1, serverRun initialServer (take 3 doubleQuitSchedule) = Some w1 /\
     masterConn (sState w1) = Some 2%nat /\
     exists w2, serverStep w1 (MasterKey 1 "q") = Some w2 /\ masterConn (sState w2) = None) /\
  (exists w, serverRun initialServer doubleQuitSchedule = Some w /\
     liveMasters w = [3%nat; 2%nat] /\ masterConn (sState w) = Some 3%nat) /\
  (exists w, serverRun initialServer sequentialQuitSchedule = Some w /\
     liveMasters w = [2%nat] /\ masterConn (sState w) = Some 2%nat /\
     pokerHandler (sState (default w (serverRun initialServer (take 4 sequentialQuitSchedule))))
       3 true true = (sState w, Denied)).
Proof.
  split; [eexists; split; [vm_compute; reflexivity |];
          split; [reflexivity | eexists; split; [vm_compute; reflexivity | reflexivity]] |].
  split; [eexists; split; [vm_compute; reflexivity | split; reflexivity] |].
  eexists; split; [vm_compute; reflexivity |].
  split; [reflexivity |]. split; [reflexivity |]. vm_compute; reflexivity.
Qed.

(* ------------------------------------------------------------------ *)
(** ** Registration *)

(** Run back to back, the two sections of one attempt are exactly what
    [nameInputUpdate] does to the shared state on enter. *)
Lemma regSections_sequential tu st v :
  (regRun st [mkAttempt v RegStart] [0%nat; 0%nat]).1 = (nameInputUpdate tu st v NEnter).1.
Proof.
  unfold regRun, nameInputUpdate. cbn -[String.eqb]. unfold regStep. cbn -[String.eqb].
  destruct (String.eqb (textValue v) EmptyString); [reflexivity |].
  destruct (bool_decide (is_Some (players st !! textValue v))); reflexivity.
Qed.


(** C5: the duplicate check and the insertion are separate critical
    sections. Run one after the other, the second "alice" is refused
    (schedule [0;0;1;1]); interleaved (schedule [0;1;0;1]: A checks, B
    checks, A inserts, B inserts), both sessions join and B's insertion
    overwrites A's entry, whose session handle is lost. *)
Theorem registration_race_overwrites :
  regRun initialState [aliceA; aliceB] [0%nat; 0%nat; 1%nat; 1%nat] =
    (mkGame {["alice" := mkPlayer EmptyString 1 false]} false None,
     [mkAttempt (mkNameInput "alice" None 1) RegJoined;
      mkAttempt (mkNameInput "alice" None 2) (RegRejected "name already taken")]) /\
  regRun initialState [aliceA; aliceB] [0%nat; 1%nat; 0%nat; 1%nat] =
    (mkGame {["alice" := mkPlayer EmptyString 2 false]} false None,
     [mkAttempt (mkNameInput "alice" None 1) RegJoined;
      mkAttempt (mkNameInput "alice" None 2) RegJoined]).
Proof. split; vm_compute; reflexivity. Qed.

(* ------------------------------------------------------------------ *)
(** ** Name validation *)

(** C7: [validatePlayerName] rejects "master" (reserved) and "x" (too
    short), but [nameInputView.Update] never calls it: on enter both names
    are registered. *)
Theorem validatePlayerName_unused (tu : string -> nameMsg -> string * cmd) :
  validatePlayerName "master" = Some NameReserved /\
  validatePlayerName "x" = Some NameTooShort /\
  validatePlayerName "alice" = None /\
  nameInputUpdate tu initialState (mkNameInput "master" None 1) NEnter =
    (mkGame {["master" := mkPlayer EmptyString 1 false]} false None,
     ToPlayerView (mkPlayerView "master" initialList EmptyString)) /\
  nameInputUpdate tu initialState (mkNameInput "x" None 1) NEnter =
    (mkGame {["x" := mkPlayer EmptyString 1 false]} false None,
     ToPlayerView (mkPlayerView "x" initialList EmptyString)).
Proof. repeat split; vm_compute; reflexivity. Qed.

(* ------------------------------------------------------------------ *)
(** ** sort.Float64s: the result is a sorted permutation *)

Local Open Scope list_scope.
Local Open Scope nat_scope.

Lemma float64Less_rank x y : float64Less x y = lexltb (rank x) (rank y).
Proof.
  unfold float64Less, PrimFloat.is_nan, rank.
  rewrite FloatAxioms.ltb_spec, !FloatAxioms.eqb_spec.
  destruct (Prim2SF x) as [sx | sx | | sx mx ex]; destruct (Prim2SF y) as [sy | sy | | sy my ey];
    try destruct sx; try destruct sy; cbn; try reflexivity.
  all: rewrite ?Z.compare_refl, ?Pos.compare_cont_refl; cbn; try reflexivity.
  all: rewrite orb_false_r; change (PosDef.Pos.compare_cont Eq mx my) with (Pos.compare mx my).
  all: destruct (Z.compare_spec ex ey) as [E | E | E].
  all: try (subst ey; rewrite Z.eqb_refl, Z.ltb_irrefl; cbn).
  all: try (destruct (Pos.compare_spec mx my) as [F | F | F]; cbn; symmetry;
            first [apply Z.ltb_ge; lia | apply Z.ltb_lt; lia]).
  all: try (rewrite (proj2 (Z.ltb_lt _ _)) by lia; reflexivity).
  all: rewrite (proj2 (Z.ltb_ge _ _)) by lia; rewrite (proj2 (Z.eqb_neq _ _)) by lia; reflexivity.
Qed.

Lemma lexltb_irrefl x : lexltb x x = false.
Proof. destruct x as [[a b] c]; unfold lexltb. rewrite !Z.ltb_irrefl, !Z.eqb_refl. reflexivity. Qed.

Ltac lex_destr :=
  repeat match goal with
  | x : Z * Z * Z |- _ => let a := fresh "a" in let b := fresh "b" in let c := fresh "c" in
                          destruct x as [[a b] c]
  end;
  unfold lexltb in *;
  repeat match goal with
  | H : _ |- _ => rewrite ?orb_true_iff, ?orb_false_iff, ?andb_true_iff, ?andb_false_iff,
                 ?Z.ltb_lt, ?Z.ltb_ge, ?Z.eqb_eq, ?Z.eqb_neq in H
  end;
  rewrite ?orb_true_iff, ?orb_false_iff, ?andb_true_iff, ?andb_false_iff,
    ?Z.ltb_lt, ?Z.ltb_ge, ?Z.eqb_eq, ?Z.eqb_neq.

Lemma lexltb_trans x y z : lexltb x y = true -> lexltb y z = true -> lexltb x z = true.
Proof. intros H1 H2. lex_destr. lia. Qed.

Lemma lexltb_weak x y z : lexltb x z = true -> lexltb x y = true \/ lexltb y z = true.
Proof.
  intros H. destruct (lexltb x y) eqn:E1; [left; reflexivity |].
  destruct (lexltb y z) eqn:E2; [right; reflexivity |].
  exfalso. lex_destr. lia.
Qed.

Lemma lt_irrefl x : float64Less x x = false.
Proof. rewrite float64Less_rank. apply lexltb_irrefl. Qed.

Lemma lt_asym x y : float64Less x y = true -> float64Less y x = false.
Proof.
  rewrite !float64Less_rank. intros H. destruct (lexltb (rank y) (rank x)) eqn:E; [| reflexivity].
  pose proof (lexltb_trans _ _ _ H E) as F. rewrite lexltb_irrefl in F. discriminate.
Qed.

Lemma lt_trans x y z : float64Less x y = true -> float64Less y z = true -> float64Less x z = true.
Proof. rewrite !float64Less_rank. apply lexltb_trans. Qed.

Lemma lt_weak x y z : float64Less x z = true -> float64Less x y = true \/ float64Less y z = true.
Proof. rewrite !float64Less_rank. apply lexltb_weak. Qed.

(** Not less is transitive. *)
Lemma nlt_trans x y z :
  float64Less y x = false -> float64Less z y = false -> float64Less z x = false.
Proof.
  intros H1 H2. destruct (float64Less z x) eqn:E; [| reflexivity].
  destruct (lt_weak z y x E) as [F | F]; congruence.
Qed.

Lemma length_swap l i j : length (swap l i j) = length l.
Proof. unfold swap. destruct (l !! i), (l !! j); rewrite ?length_insert; reflexivity. Qed.

Lemma lookup_swap l i j k :
  i < length l -> j < length l ->
  swap l i j !! k = if decide (k = i) then l !! j else if decide (k = j) then l !! i else l !! k.
Proof.
  intros Hi Hj. unfold swap.
  destruct (lookup_lt_is_Some_2 l i Hi) as [x Ex]. destruct (lookup_lt_is_Some_2 l j Hj) as [y Ey].
  rewrite Ex, Ey.
  destruct (decide (k = i)) as [-> |].
  - rewrite list_lookup_insert_eq; [reflexivity | rewrite length_insert; exact Hi].
  - rewrite list_lookup_insert_ne by congruence.
    destruct (decide (k = j)) as [-> |].
    + rewrite list_lookup_insert_eq; [reflexivity | exact Hj].
    + rewrite list_lookup_insert_ne by congruence. reflexivity.
Qed.

Lemma swap_out l i j : ~ (i < length l /\ j < length l) -> swap l i j = l.
Proof.
  intros H. unfold swap.
  destruct (l !! i) eqn:Ei; [| reflexivity]. destruct (l !! j) eqn:Ej; [| reflexivity].
  exfalso. apply H. split; eapply lookup_lt_Some; eauto.
Qed.

Lemma insert_cons_perm (l : list float) j y z : l !! j = Some y -> y :: <[j:=z]> l ≡ₚ z :: l.
Proof.
  revert j. induction l as [| w l IH]; intros j H; [discriminate |].
  destruct j as [| j]; simpl in *.
  - injection H as <-. apply perm_swap.
  - etrans; [apply perm_swap |]. etrans; [apply perm_skip, IH, H |]. apply perm_swap.
Qed.

Lemma insert2_perm (l : list float) i j x y :
  l !! i = Some x -> l !! j = Some y -> <[i:=y]> (<[j:=x]> l) ≡ₚ l.
Proof.
  revert i j. induction l as [| z l IH]; intros i j Hi Hj; [discriminate |].
  destruct i as [| i], j as [| j]; simpl in *.
  - injection Hi as <-. injection Hj as <-. reflexivity.
  - injection Hi as <-. apply insert_cons_perm, Hj.
  - injection Hj as <-. apply insert_cons_perm, Hi.
  - apply perm_skip, IH; assumption.
Qed.

Lemma swap_perm l i j : swap l i j ≡ₚ l.
Proof.
  unfold swap. destruct (l !! i) eqn:Ei; [| reflexivity]. destruct (l !! j) eqn:Ej; [| reflexivity].
  apply insert2_perm; assumption.
Qed.

Lemma lookup_seg l a b k : seg l a b !! k = if decide (k < b - a) then l !! (a + k) else None.
Proof.
  unfold seg. case_decide.
  - rewrite lookup_take_lt by lia. apply lookup_drop.
  - apply lookup_take_ge. lia.
Qed.

Lemma length_seg l a b : b <= length l -> length (seg l a b) = b - a.
Proof. intros H. unfold seg. rewrite length_take, length_drop. lia. Qed.

Lemma SegPerm_refl a b l : SegPerm a b l l.
Proof. split; [reflexivity | split; [reflexivity | reflexivity]]. Qed.

Lemma SegPerm_trans a b l1 l2 l3 : SegPerm a b l1 l2 -> SegPerm a b l2 l3 -> SegPerm a b l1 l3.
Proof.
  intros [L1 [O1 P1]] [L2 [O2 P2]]. split; [congruence |].
  split; [intros k Hk; rewrite O2, O1 by exact Hk; reflexivity |].
  etrans; eassumption.
Qed.

Lemma seg_swap l a b i j :
  a <= i < b -> a <= j < b -> b <= length l ->
  seg (swap l i j) a b = swap (seg l a b) (i - a) (j - a).
Proof.
  intros Hi Hj Hb. apply list_eq. intros k.
  rewrite (lookup_swap (seg l a b)) by (rewrite length_seg by exact Hb; lia).
  rewrite !lookup_seg.
  case_decide.
  - rewrite lookup_swap by lia.
    repeat case_decide; try lia; f_equal; lia.
  - repeat case_decide; try reflexivity; lia.
Qed.

Lemma SegPerm_swap a b l i j :
  a <= i < b -> a <= j < b -> b <= length l -> SegPerm a b l (swap l i j).
Proof.
  intros Hi Hj Hb. split; [apply length_swap |]. split.
  - intros k Hk. rewrite lookup_swap by lia. repeat case_decide; try lia. reflexivity.
  - rewrite seg_swap by assumption. apply swap_perm.
Qed.

Lemma seg_split l a m b : a <= m <= b -> seg l a b = seg l a m ++ seg l m b.
Proof.
  intros H. unfold seg. replace (b - a) with ((m - a) + (b - m)) by lia.
  rewrite <- take_take_drop, drop_drop. replace (a + (m - a)) with m by lia. reflexivity.
Qed.

Lemma seg_agree l l' a b :
  (forall k, a <= k < b -> l' !! k = l !! k) -> seg l' a b = seg l a b.
Proof.
  intros H. apply list_eq. intros k. rewrite !lookup_seg. case_decide; [apply H; lia | reflexivity].
Qed.

Lemma SegPerm_widen a b a' b' l l' :
  a <= a' -> a' <= b' -> b' <= b -> SegPerm a' b' l l' -> SegPerm a b l l'.
Proof.
  intros H1 H2 H3 [L [O P]]. split; [exact L |]. split.
  - intros k Hk. apply O. lia.
  - rewrite (seg_split l' a a' b), (seg_split l' a' b' b), (seg_split l a a' b), (seg_split l a' b' b)
      by lia.
    rewrite (seg_agree l l' a a'), (seg_agree l l' b' b) by (intros k Hk; apply O; lia).
    apply Permutation_app_head, Permutation_app_tail, P.
Qed.

Lemma AllSeg_Forall P l a b : b <= length l -> AllSeg P l a b <-> Forall P (seg l a b).
Proof.
  intros Hb. rewrite Forall_lookup. split.
  - intros H i x Hx. rewrite lookup_seg in Hx. case_decide; [| discriminate].
    specialize (H (a + i) ltac:(lia)). unfold at_ in H. rewrite Hx in H. exact H.
  - intros H k Hk. unfold at_.
    destruct (lookup_lt_is_Some_2 l k ltac:(lia)) as [x Ex]. rewrite Ex. simpl.
    apply (H (k - a)). rewrite lookup_seg. case_decide; [| lia].
    rewrite <- Ex. f_equal. lia.
Qed.

Lemma AllSeg_SegPerm P a b l l' :
  b <= length l -> SegPerm a b l l' -> AllSeg P l a b -> AllSeg P l' a b.
Proof.
  intros Hb HP H. destruct HP as [L [O Pm]].
  apply AllSeg_Forall; [lia |]. rewrite Pm. apply AllSeg_Forall; assumption.
Qed.

Lemma AllSeg_sub P l a b a' b' : a <= a' -> b' <= b -> AllSeg P l a b -> AllSeg P l a' b'.
Proof. intros H1 H2 H k Hk. apply H. lia. Qed.

Lemma at_agree l l' k : l' !! k = l !! k -> at_ l' k = at_ l k.
Proof. unfold at_. intros ->. reflexivity. Qed.

Lemma AllSeg_agree P l l' a b :
  (forall k, a <= k < b -> l' !! k = l !! k) -> AllSeg P l a b -> AllSeg P l' a b.
Proof. intros E H k Hk. rewrite (at_agree l l' k (E k Hk)). apply H, Hk. Qed.

Lemma SortedSeg_agree l l' a b :
  (forall k, a <= k < b -> l' !! k = l !! k) -> SortedSeg l a b -> SortedSeg l' a b.
Proof.
  intros E H k Hk. unfold less. rewrite (at_agree l l' k), (at_agree l l' (k - 1)) by (apply E; lia).
  apply H, Hk.
Qed.

Lemma SortedSeg_join l a m b :
  SortedSeg l a m -> SortedSeg l m b -> (a < m < b -> less l m (m - 1) = false) -> SortedSeg l a b.
Proof.
  intros H1 H2 H3 k Hk.
  destruct (decide (k < m)); [apply H1; lia |].
  destruct (decide (k = m)) as [-> |]; [apply H3; lia | apply H2; lia].
Qed.

Lemma SortedSeg_small l a b : b <= S a -> SortedSeg l a b.
Proof. intros H k Hk. lia. Qed.

Lemma SegPerm_agree_out a b c d l l' :
  SegPerm a b l l' -> (d <= a \/ b <= c) -> forall k, c <= k < d -> l' !! k = l !! k.
Proof. intros [_ [O _]] H k Hk. apply O. lia. Qed.

Lemma SegPerm_length a b l l' : SegPerm a b l l' -> length l' = length l.
Proof. intros [L _]; exact L. Qed.

Lemma swap_same l i : swap l i i = l.
Proof.
  unfold swap. destruct (l !! i) eqn:E; [| reflexivity].
  rewrite list_insert_insert. case_decide; [| congruence]. apply list_insert_id. exact E.
Qed.

Lemma at_swap l i j k :
  i < length l -> j < length l ->
  at_ (swap l i j) k = if decide (k = i) then at_ l j else if decide (k = j) then at_ l i else at_ l k.
Proof. intros Hi Hj. unfold at_. rewrite lookup_swap by assumption. repeat case_decide; reflexivity. Qed.

Lemma less_swap l i j x y :
  i < length l -> j < length l ->
  less (swap l i j) x y =
  float64Less (if decide (x = i) then at_ l j else if decide (x = j) then at_ l i else at_ l x)
              (if decide (y = i) then at_ l j else if decide (y = j) then at_ l i else at_ l y).
Proof. intros Hi Hj. unfold less. rewrite !at_swap by assumption. reflexivity. Qed.

Lemma InsInv_start a j l : SortedSeg l a j -> InsInv a j l j.
Proof. intros H. split; [exact H |]. split; [apply SortedSeg_small; lia | lia]. Qed.

Lemma InsInv_exit a j0 l j :
  a <= j -> InsInv a j0 l j -> (j = a \/ less l j (j - 1) = false) -> SortedSeg l a (S j0).
Proof.
  intros Ha [H1 [H2 H3]] Hx k Hk.
  destruct (decide (k < j)); [apply H1; lia |].
  destruct (decide (k = j)) as [-> |]; [destruct Hx; [lia | assumption] |].
  destruct (decide (k = S j)) as [-> |].
  - destruct (H3 ltac:(lia)) as [Hl _]. replace (S j - 1) with j by lia. apply lt_asym, Hl.
  - apply H2. lia.
Qed.

Lemma InsInv_step a j0 l j :
  a < j -> j <= j0 -> j0 < length l -> InsInv a j0 l j -> less l j (j - 1) = true ->
  InsInv a j0 (swap l j (j - 1)) (j - 1).
Proof.
  intros Haj Hj Hl [H1 [H2 H3]] Hlt.
  split; [| split].
  - intros k Hk. rewrite less_swap by lia. repeat case_decide; try lia. apply H1. lia.
  - intros k Hk. rewrite less_swap by lia.
    destruct (decide (k = S (j - 1))) as [Ek |]; [lia |].
    destruct (decide (k = S j)) as [-> |].
    + repeat case_decide; try lia. replace (S j - 1) with j in * by lia.
      destruct (H3 ltac:(lia)) as [_ Hs]. apply Hs. lia.
    + repeat case_decide; try lia. apply H2. lia.
  - intros _. rewrite !less_swap by lia. split.
    + repeat case_decide; try lia. replace (S (j - 1)) with j by lia. exact Hlt.
    + intros Ha2. repeat case_decide; try lia. replace (S (j - 1)) with j by lia.
      replace (j - 1 - 1) with (j - 1 - 1) by lia. apply (H1 (j - 1)). lia.
Qed.

Lemma insertionInner_spec a j0 fuel l j :
  a <= j -> j <= j0 -> j0 < length l -> j - a <= fuel -> InsInv a j0 l j ->
  SegPerm a (S j0) l (insertionInner fuel l a j) /\ SortedSeg (insertionInner fuel l a j) a (S j0).
Proof.
  revert l j. induction fuel as [| f IH]; intros l j Haj Hj Hl Hf HI; simpl.
  - split; [apply SegPerm_refl | apply (InsInv_exit a j0 l j); [lia | exact HI | left; lia]].
  - destruct (a <? j) eqn:E1; simpl.
    + apply Nat.ltb_lt in E1. destruct (less l j (j - 1)) eqn:E2.
      * destruct (IH (swap l j (j - 1)) (j - 1)) as [P Hs];
          [lia | lia | rewrite length_swap; lia | lia | apply InsInv_step; assumption |].
        split; [| exact Hs].
        eapply SegPerm_trans; [apply (SegPerm_swap _ _ _ j (j - 1)); lia | exact P].
      * split; [apply SegPerm_refl | apply (InsInv_exit a j0 l j); [lia | exact HI | right; exact E2]].
    + apply Nat.ltb_ge in E1.
      split; [apply SegPerm_refl | apply (InsInv_exit a j0 l j); [lia | exact HI | left; lia]].
Qed.

Lemma insertionOuter_spec a b fuel l i :
  a < i -> i <= b -> b <= length l -> b - i <= fuel -> SortedSeg l a i ->
  SegPerm a b l (insertionOuter fuel l a b i) /\ SortedSeg (insertionOuter fuel l a b i) a b.
Proof.
  revert l i. induction fuel as [| f IH]; intros l i Hai Hib Hb Hf HS; simpl.
  - replace b with i by lia. split; [apply SegPerm_refl | exact HS].
  - destruct (i <? b) eqn:E.
    + apply Nat.ltb_lt in E.
      destruct (insertionInner_spec a i (i - a) l i) as [P1 S1];
        [lia | lia | lia | lia | apply InsInv_start, HS |].
      destruct (IH (insertionInner (i - a) l a i) (S i)) as [P2 S2];
        [lia | lia | rewrite (SegPerm_length _ _ _ _ P1); lia | lia | exact S1 |].
      split; [| exact S2].
      eapply SegPerm_trans; [| exact P2]. eapply SegPerm_widen; [| | | exact P1]; lia.
    + apply Nat.ltb_ge in E. replace b with i by lia. split; [apply SegPerm_refl | exact HS].
Qed.

Lemma insertionSort_spec l a b :
  a <= b -> b <= length l ->
  SegPerm a b l (insertionSort l a b) /\ SortedSeg (insertionSort l a b) a b.
Proof.
  intros Hab Hb. unfold insertionSort.
  destruct (decide (b = a)) as [-> |].
  - rewrite Nat.sub_diag. simpl. split; [apply SegPerm_refl | apply SortedSeg_small; lia].
  - apply insertionOuter_spec; [lia | lia | exact Hb | lia | apply SortedSeg_small; lia].
Qed.

(** [shiftLeft] stops at [a] when the moving element is not less than
    [data[a-1]]. *)
Lemma shiftLeft_spec a j0 fuel l j :
  a <= j -> j <= j0 -> j0 < length l -> j <= fuel -> InsInv a j0 l j ->
  (0 < a -> less l j (a - 1) = false) ->
  SegPerm a (S j0) l (shiftLeft fuel l j) /\ SortedSeg (shiftLeft fuel l j) a (S j0).
Proof.
  revert l j. induction fuel as [| f IH]; intros l j Haj Hj Hl Hf HI HB; cbn [shiftLeft].
  - split; [apply SegPerm_refl | apply (InsInv_exit a j0 l j); [lia | exact HI | left; lia]].
  - destruct (1 <=? j) eqn:E1.
    + apply Nat.leb_le in E1. destruct (less l j (j - 1)) eqn:E2; cbn [negb].
      * assert (Haj' : a < j).
        { destruct (decide (a = j)) as [<- |]; [| lia]. rewrite HB in E2 by lia. discriminate. }
        destruct (IH (swap l j (j - 1)) (j - 1)) as [P Hs];
          [lia | lia | rewrite length_swap; lia | lia | apply InsInv_step; assumption | |].
        { intros Ha. rewrite less_swap by lia. repeat case_decide; try lia. apply HB, Ha. }
        split; [| exact Hs].
        eapply SegPerm_trans; [apply (SegPerm_swap _ _ _ j (j - 1)); lia | exact P].
      * split; [apply SegPerm_refl | apply (InsInv_exit a j0 l j); [lia | exact HI | right; exact E2]].
    + apply Nat.leb_gt in E1.
      split; [apply SegPerm_refl | apply (InsInv_exit a j0 l j); [lia | exact HI | left; lia]].
Qed.

Lemma div2_spec n : n = 2 * (n / 2) + n mod 2 /\ n mod 2 < 2.
Proof. split; [apply Nat.div_mod; lia | apply Nat.mod_upper_bound; lia]. Qed.

Lemma parent_of r c : c = 2 * r + 1 \/ c = 2 * r + 2 -> (c - 1) / 2 = r.
Proof. intros H. destruct (div2_spec (c - 1)). lia. Qed.

Lemma child_max l first hi r ch :
  2 * r + 1 < hi ->
  ch = (if (S (2 * r + 1) <? hi) && less l (first + (2 * r + 1)) (first + S (2 * r + 1))
        then S (2 * r + 1) else 2 * r + 1) ->
  (ch = 2 * r + 1 \/ ch = 2 * r + 2) /\ ch < hi /\
  forall c, c < hi -> (c = 2 * r + 1 \/ c = 2 * r + 2) -> less l (first + ch) (first + c) = false.
Proof.
  intros Hc ->. destruct (S (2 * r + 1) <? hi) eqn:E1; cbn [andb].
  - apply Nat.ltb_lt in E1. destruct (less l (first + (2 * r + 1)) (first + S (2 * r + 1))) eqn:E2.
    + split; [lia |]. split; [lia |]. intros c Hc' [-> | ->].
      * unfold less in *. apply lt_asym. replace (2 * r + 2) with (S (2 * r + 1)) in * by lia. exact E2.
      * unfold less. replace (first + S (2 * r + 1)) with (first + (2 * r + 2)) by lia. apply lt_irrefl.
    + split; [lia |]. split; [lia |]. intros c Hc' [-> | ->].
      * unfold less. apply lt_irrefl.
      * replace (first + (2 * r + 2)) with (first + S (2 * r + 1)) by lia. exact E2.
  - apply Nat.ltb_ge in E1. split; [lia |]. split; [lia |]. intros c Hc' [-> | ->]; [| lia].
    unfold less. apply lt_irrefl.
Qed.

Lemma siftDown_spec first hi from fuel l root :
  first + hi <= length l -> hi - root <= fuel -> SiftInv l first hi from root ->
  SegPerm first (first + hi) l (siftDown fuel l root hi first) /\
  Heap (siftDown fuel l root hi first) first hi from.
Proof.
  revert l root. induction fuel as [| f IH]; intros l root Hlen Hf [H0 [H1 H2]]; cbn [siftDown].
  - split; [apply SegPerm_refl |]. intros r Hr.
    destruct (decide (r = root)) as [-> |]; [intros c Hc Hcs; lia | apply H1; assumption].
  - destruct (hi <=? 2 * root + 1) eqn:E1.
    + apply Nat.leb_le in E1. split; [apply SegPerm_refl |]. intros r Hr.
      destruct (decide (r = root)) as [-> |]; [intros c Hc Hcs; lia | apply H1; assumption].
    + apply Nat.leb_gt in E1.
      remember (if (S (2 * root + 1) <? hi) && less l (first + (2 * root + 1)) (first + S (2 * root + 1))
                then S (2 * root + 1) else 2 * root + 1) as ch eqn:Ech.
      destruct (child_max l first hi root ch E1 Ech) as [Hch [Hchi Hmax]].
      destruct (less l (first + root) (first + ch)) eqn:E2; cbn [negb].
      * set (l' := swap l (first + root) (first + ch)).
        assert (Hl' : length l' = length l) by apply length_swap.
        destruct (IH l' ch) as [P Hp]; [lia | lia | |].
        { split; [lia |]. split.
          - intros r Hr Hrc c Hc Hcs. unfold l'. rewrite less_swap by lia.
            destruct (decide (r = root)) as [-> |].
            + destruct (decide (c = ch)) as [-> |].
              * repeat case_decide; try lia. apply lt_asym. exact E2.
              * repeat case_decide; try lia. apply Hmax; assumption.
            + destruct (decide (c = root)) as [-> |].
              * assert (Hrf : root <> from) by lia.
                destruct (H2 Hrf) as [Hpf Hgp].
                rewrite <- (parent_of r root Hcs) in *.
                repeat case_decide; try lia. apply Hgp; assumption.
              * repeat case_decide; try lia. apply H1; assumption.
          - intros _. rewrite (parent_of root ch Hch). split; [exact H0 |].
            intros c Hc Hcs.
            unfold l'. rewrite less_swap by lia. repeat case_decide; try lia.
            apply H1; [lia | lia | exact Hc | exact Hcs]. }
        split; [| exact Hp].
        eapply SegPerm_trans; [apply (SegPerm_swap _ _ _ (first + root) (first + ch)); lia | exact P].
      * split; [apply SegPerm_refl |]. intros r Hr.
        destruct (decide (r = root)) as [-> |]; [| apply H1; assumption].
        intros c Hc Hcs. unfold less in *. apply (nlt_trans _ (at_ l (first + ch))); [apply Hmax; assumption | exact E2].
Qed.

Lemma heapify_spec first hi i l :
  first + hi <= length l -> Heap l first hi (S i) ->
  SegPerm first (first + hi) l (heapify l i hi first) /\ Heap (heapify l i hi first) first hi 0.
Proof.
  revert l. induction i as [| i IH]; intros l Hlen H; cbn [heapify].
  - apply siftDown_spec; [exact Hlen | lia |]. split; [lia |]. split; [| lia].
    intros r Hr Hr0. apply H. lia.
  - destruct (siftDown_spec first hi (S i) hi l (S i)) as [P1 H1]; [exact Hlen | lia | |].
    { split; [lia |]. split; [| lia]. intros r Hr Hr0. apply H. lia. }
    destruct (IH (siftDown hi l (S i) hi first)) as [P2 H2];
      [rewrite (SegPerm_length _ _ _ _ P1); exact Hlen | intros r Hr; apply H1; lia |].
    split; [eapply SegPerm_trans; eassumption | exact H2].
Qed.

(** The root of a heap is not less than any of its elements. *)
Lemma heap_root_max l first hi k :
  Heap l first hi 0 -> k < hi -> less l first (first + k) = false.
Proof.
  intros H. induction k as [k IH] using (well_founded_induction lt_wf). intros Hk.
  destruct k as [| k']; [rewrite Nat.add_0_r; unfold less; apply lt_irrefl |].
  set (p := k' / 2). destruct (div2_spec k').
  assert (Hp : less l (first + p) (first + S k') = false) by (apply (H p); lia).
  assert (Hr : less l first (first + p) = false) by (apply IH; lia).
  unfold less in *. apply (nlt_trans _ (at_ l (first + p))); assumption.
Qed.

Lemma heapPop_spec first n i l :
  first + n <= length l -> S i <= n -> PopInv l first n i ->
  SegPerm first (first + n) l (heapPop l i first) /\ SortedSeg (heapPop l i first) first (first + n).
Proof.
  revert l. induction i as [| i IH]; intros l Hlen Hi [HH [HS HA]]; cbn [heapPop].
  - rewrite Nat.add_0_r, swap_same. cbn [siftDown]. split; [apply SegPerm_refl |].
    apply (SortedSeg_join _ _ (first + 1)); [apply SortedSeg_small; lia | exact HS |].
    intros Hk. specialize (HA (first + 1) ltac:(lia) first ltac:(lia)). cbn beta in HA.
    unfold less. replace (first + 1 - 1) with first by lia. exact HA.
  - set (l1 := swap l first (first + S i)).
    assert (Hl1 : length l1 = length l) by apply length_swap.
    destruct (siftDown_spec first (S i) 0 (S i) l1 0) as [P1 H1]; [lia | lia | |].
    { split; [lia |]. split; [| lia].
      intros r Hr Hr0 c Hc Hcs. unfold l1. rewrite less_swap by lia.
      repeat case_decide; try lia. apply (HH r); lia. }
    set (l2 := siftDown (S i) l1 0 (S i) first) in *.
    assert (Hout : forall k, k < first \/ first + S i <= k -> l2 !! k = l1 !! k)
      by (intros k Hk; destruct P1 as [_ [O _]]; apply O; lia).
    assert (Hmax : forall k, k < S (S i) -> float64Less (at_ l first) (at_ l (first + k)) = false)
      by (intros k Hk; apply (heap_root_max l first (S (S i))); assumption).
    destruct (IH l2) as [P2 S2]; [rewrite (SegPerm_length _ _ _ _ P1), Hl1; exact Hlen | lia | |].
    + split; [exact H1 |]. split.
      * apply (SortedSeg_agree l1); [intros k Hk; apply Hout; lia |].
        apply (SortedSeg_join _ _ (first + S (S i))); [apply SortedSeg_small; lia | |].
        { apply (SortedSeg_agree l); [| exact HS].
          intros k Hk. unfold l1. rewrite lookup_swap by lia. repeat case_decide; try lia. reflexivity. }
        intros Hk. unfold l1. rewrite less_swap by lia. repeat case_decide; try lia.
        replace (first + S (S i) - 1) with (first + S i) by lia.
        apply (HA (first + S (S i)) ltac:(lia) first). lia.
      * intros m Hm. 
        rewrite (at_agree l1 l2 m) by (apply Hout; lia).
        apply (AllSeg_SegPerm _ first (first + S i) l1 l2); [lia | exact P1 |].
        intros k Hk. unfold l1. rewrite !at_swap by lia.
        destruct (decide (m = first + S i)) as [-> |].
        { repeat case_decide; try lia. 
          - replace (first + S i) with (first + S i) by lia. apply Hmax. lia.
          - replace k with (first + (k - first)) by lia. apply Hmax. lia. }
        repeat case_decide; try lia.
        { apply (HA m ltac:(lia) (first + S i)). lia. }
        { apply (HA m ltac:(lia) k). lia. }
    + split; [| exact S2].
      eapply SegPerm_trans; [apply (SegPerm_swap _ _ _ first (first + S i)); lia |].
      eapply SegPerm_trans; [| exact P2].
      eapply SegPerm_widen; [| | | exact P1]; lia.
Qed.

Lemma heapSort_spec l a b :
  a < b -> b <= length l -> SegPerm a b l (heapSort l a b) /\ SortedSeg (heapSort l a b) a b.
Proof.
  intros Hab Hb. unfold heapSort.
  destruct (heapify_spec a (b - a) ((b - a - 1) / 2) l) as [P1 H1];
    [lia | intros r Hr c Hc Hcs; destruct (div2_spec (b - a - 1)); lia |].
  destruct (heapPop_spec a (b - a) (b - a - 1) (heapify l ((b - a - 1) / 2) (b - a) a)) as [P2 S2].
  - rewrite (SegPerm_length _ _ _ _ P1). lia.
  - lia.
  - split; [replace (S (b - a - 1)) with (b - a) by lia; exact H1 |].
    split; [apply SortedSeg_small; lia | intros m Hm; lia].
  - replace (a + (b - a)) with b in * by lia.
    split; [eapply SegPerm_trans; eassumption | exact S2].
Qed.

Lemma land_mask_lt r e : (Z.to_nat (Z.land r (Z.of_nat (2 ^ e) - 1)) < 2 ^ e)%nat.
Proof.
  rewrite Nat2Z.inj_pow. change (Z.of_nat 2) with 2%Z.
  replace (2 ^ Z.of_nat e - 1)%Z with (Z.ones (Z.of_nat e)) by (rewrite Z.ones_equiv; lia).
  rewrite Z.land_ones by lia.
  pose proof (Z.mod_pos_bound r (2 ^ Z.of_nat e) ltac:(apply Z.pow_pos_nonneg; lia)).
  assert (Z.of_nat (2 ^ e) = 2 ^ Z.of_nat e)%Z as E by (rewrite Nat2Z.inj_pow; reflexivity).
  lia.
Qed.

Lemma breakLoop_spec k l r a b e idx i :
  0 < b - a -> 2 ^ e <= 2 * (b - a) -> a <= idx - 1 -> idx - 1 + i + k <= b -> b <= length l ->
  SegPerm a b l (breakLoop k l r a (b - a) (2 ^ e) idx i).
Proof.
  revert l r i. induction k as [| k IH]; intros l r i Hn He Hidx Hk Hb; cbn [breakLoop].
  - apply SegPerm_refl.
  - pose proof (land_mask_lt (xorshiftNext r) e).
    set (o := Z.to_nat (Z.land (xorshiftNext r) (Z.of_nat (2 ^ e) - 1))) in *.
    set (o' := if b - a <=? o then o - (b - a) else o).
    assert (Ho : o' < b - a) by (unfold o'; destruct (b - a <=? o) eqn:E;
      [apply Nat.leb_le in E | apply Nat.leb_gt in E]; lia).
    eapply SegPerm_trans; [apply (SegPerm_swap _ _ _ (idx - 1 + i) (a + o')); lia |].
    apply IH; [lia | lia | lia | lia | rewrite length_swap; lia].
Qed.

Lemma bitsLen_pow n : 0 < n -> 2 ^ bitsLen n <= 2 * n.
Proof.
  intros Hn. destruct n as [| n']; [lia |]. unfold bitsLen.
  pose proof (Nat.log2_spec (S n') Hn). rewrite Nat.pow_succ_r'. lia.
Qed.

Lemma div4_spec n : n = 4 * (n / 4) + n mod 4 /\ n mod 4 < 4.
Proof. split; [apply Nat.div_mod; lia | apply Nat.mod_upper_bound; lia]. Qed.

Lemma breakPatterns_spec l a b : a <= b -> b <= length l -> SegPerm a b l (breakPatterns l a b).
Proof.
  intros Hab Hb. unfold breakPatterns. destruct (8 <=? b - a) eqn:E; [| apply SegPerm_refl].
  apply Nat.leb_le in E. destruct (div4_spec (b - a)).
  apply breakLoop_spec; [lia | apply bitsLen_pow; lia | lia | lia | exact Hb].
Qed.

Lemma reverseLoop_spec a b fuel l i j :
  a <= i -> j < b -> b <= length l -> SegPerm a b l (reverseLoop fuel l i j).
Proof.
  revert l i j. induction fuel as [| f IH]; intros l i j Hi Hj Hb; cbn [reverseLoop].
  - apply SegPerm_refl.
  - destruct (i <? j) eqn:E; [apply Nat.ltb_lt in E | apply SegPerm_refl].
    eapply SegPerm_trans; [apply (SegPerm_swap _ _ _ i j); lia |].
    apply IH; [lia | lia | rewrite length_swap; lia].
Qed.

Lemma reverseRange_spec l a b : a < b -> b <= length l -> SegPerm a b l (reverseRange l a b).
Proof. intros Hab Hb. apply reverseLoop_spec; lia. Qed.

Lemma order2_in l x y s x' y' s' : order2 l x y s = (x', y', s') -> (x' = x /\ y' = y) \/ (x' = y /\ y' = x).
Proof. unfold order2. destruct (less l y x); intros E; injection E; intros; subst; tauto. Qed.

Lemma median_in l x y z s m s' : median l x y z s = (m, s') -> m = x \/ m = y \/ m = z.
Proof.
  unfold median.
  destruct (order2 l x y s) as [[x1 y1] s1] eqn:E1.
  destruct (order2 l y1 z s1) as [[y2 z2] s2] eqn:E2.
  destruct (order2 l x1 y2 s2) as [[x3 y3] s3] eqn:E3.
  intros E. injection E; intros; subst.
  apply order2_in in E1, E2, E3. lia.
Qed.

Lemma choosePivot_range l a b : a < b -> a <= fst (choosePivot l a b) < b.
Proof.
  intros Hab. unfold choosePivot. destruct (div4_spec (b - a)).
  destruct (8 <=? b - a) eqn:E8; [apply Nat.leb_le in E8 | apply Nat.leb_gt in E8; cbn [fst]; lia].
  destruct (50 <=? b - a) eqn:E50; [apply Nat.leb_le in E50 | apply Nat.leb_gt in E50].
  - unfold medianAdjacent.
    destruct (median l (a + (b - a) / 4 * 1 - 1) (a + (b - a) / 4 * 1) (S (a + (b - a) / 4 * 1)) 0)
      as [i1 s1] eqn:M1.
    destruct (median l (a + (b - a) / 4 * 2 - 1) (a + (b - a) / 4 * 2) (S (a + (b - a) / 4 * 2)) s1)
      as [j1 s2] eqn:M2.
    destruct (median l (a + (b - a) / 4 * 3 - 1) (a + (b - a) / 4 * 3) (S (a + (b - a) / 4 * 3)) s2)
      as [k1 s3] eqn:M3.
    destruct (median l i1 j1 k1 s3) as [p s4] eqn:M4. cbn [fst].
    apply median_in in M1, M2, M3, M4. lia.
  - destruct (median l (a + (b - a) / 4 * 1) (a + (b - a) / 4 * 2) (a + (b - a) / 4 * 3) 0)
      as [p s4] eqn:M4. cbn [fst].
    apply median_in in M4. lia.
Qed.

Lemma LB_SegPerm l l' a b : b <= length l -> SegPerm a b l l' -> LB l a b -> LB l' a b.
Proof.
  intros Hb P H Ha. rewrite (at_agree l l' (a - 1)) by (destruct P as [_ [O _]]; apply O; lia).
  eapply AllSeg_SegPerm; [exact Hb | exact P | apply H, Ha].
Qed.

Lemma LB_sub l a b b' : b' <= b -> LB l a b -> LB l a b'.
Proof. intros Hb H Ha. eapply AllSeg_sub; [| | apply H, Ha]; lia. Qed.

Lemma scanSorted_spec a fuel l i b :
  a < i -> i <= b -> b - i <= fuel -> SortedSeg l a i ->
  i <= scanSorted fuel l i b <= b /\ SortedSeg l a (scanSorted fuel l i b) /\
  (scanSorted fuel l i b < b -> less l (scanSorted fuel l i b) (scanSorted fuel l i b - 1) = true).
Proof.
  revert i. induction fuel as [| f IH]; intros i Hai Hib Hf HS; cbn [scanSorted].
  - split; [lia |]. split; [exact HS | lia].
  - destruct (i <? b) eqn:E1; cbn [andb].
    + apply Nat.ltb_lt in E1. destruct (less l i (i - 1)) eqn:E2; cbn [negb].
      * split; [lia |]. split; [exact HS | intros _; exact E2].
      * destruct (IH (S i)) as [H1 [H2 H3]]; [lia | lia | lia | |].
        { apply (SortedSeg_join _ _ i); [exact HS | apply SortedSeg_small; lia | intros _; exact E2]. }
        split; [lia |]. split; assumption.
    + apply Nat.ltb_ge in E1. split; [lia |]. split; [exact HS | lia].
Qed.

Lemma shiftRight_spec lo b fuel l j :
  lo < j -> b <= length l -> SegPerm lo b l (shiftRight fuel l j b).
Proof.
  revert l j. induction fuel as [| f IH]; intros l j Hj Hb; cbn [shiftRight].
  - apply SegPerm_refl.
  - destruct (j <? b) eqn:E1; [apply Nat.ltb_lt in E1 | apply SegPerm_refl].
    destruct (less l j (j - 1)); cbn [negb]; [| apply SegPerm_refl].
    eapply SegPerm_trans; [apply (SegPerm_swap _ _ _ j (j - 1)); lia |].
    apply IH; [lia | rewrite length_swap; exact Hb].
Qed.

Lemma partialSteps_spec a b st l i :
  a < i -> i <= b -> b <= length l -> LB l a b -> SortedSeg l a i ->
  SegPerm a b l (partialSteps st l a b i).2 /\
  ((partialSteps st l a b i).1 = true -> SortedSeg (partialSteps st l a b i).2 a b).
Proof.
  revert l i. induction st as [| st IH]; intros l i Hai Hib Hb HL HS; cbn [partialSteps].
  - split; [apply SegPerm_refl | discriminate].
  - destruct (scanSorted_spec a (b - i) l i b) as [Hi' [HS' Hlt]]; [lia | lia | lia | exact HS |].
    set (i' := scanSorted (b - i) l i b) in *.
    destruct (Nat.eqb i' b) eqn:Eb; [apply Nat.eqb_eq in Eb | apply Nat.eqb_neq in Eb].
    { split; [apply SegPerm_refl | intros _; rewrite <- Eb; exact HS']. }
    destruct (b - a <? 50); [split; [apply SegPerm_refl | discriminate] |].
    set (l1 := swap l i' (i' - 1)).
    assert (P1 : SegPerm a b l l1) by (apply SegPerm_swap; lia).
    assert (L1 : LB l1 a b) by (eapply LB_SegPerm; eassumption).
    assert (Q2 : SegPerm a b l1 (if 2 <=? i' - a then shiftLeft (i' - 1) l1 (i' - 1) else l1) /\
                 SortedSeg (if 2 <=? i' - a then shiftLeft (i' - 1) l1 (i' - 1) else l1) a i').
    { destruct (2 <=? i' - a) eqn:E2; [apply Nat.leb_le in E2 | apply Nat.leb_gt in E2].
      - destruct (shiftLeft_spec a (i' - 1) (i' - 1) l1 (i' - 1)) as [P2 S2];
          [lia | lia | unfold l1; rewrite length_swap; lia | lia | | |].
        + apply InsInv_start. apply (SortedSeg_agree l).
          * intros k Hk. unfold l1. rewrite lookup_swap by lia. repeat case_decide; try lia. reflexivity.
          * intros k Hk. apply HS'. lia.
        + intros Ha. unfold less. apply (L1 Ha). lia.
        + replace (S (i' - 1)) with i' in * by lia. split; [| exact S2].
          eapply SegPerm_widen; [| | | exact P2]; lia.
      - split; [apply SegPerm_refl | apply SortedSeg_small; lia]. }
    set (l2 := if 2 <=? i' - a then shiftLeft (i' - 1) l1 (i' - 1) else l1) in *.
    destruct Q2 as [P2 S2].
    assert (Hl2 : length l2 = length l)
      by (rewrite (SegPerm_length _ _ _ _ P2), (SegPerm_length _ _ _ _ P1); reflexivity).
    assert (P3 : SegPerm i' b l2 (if 2 <=? b - i' then shiftRight (b - S i') l2 (S i') b else l2))
      by (destruct (2 <=? b - i'); [apply shiftRight_spec; lia | apply SegPerm_refl]).
    set (l3 := if 2 <=? b - i' then shiftRight (b - S i') l2 (S i') b else l2) in *.
    assert (P123 : SegPerm a b l l3).
    { eapply SegPerm_trans; [exact P1 |]. eapply SegPerm_trans; [exact P2 |].
      eapply SegPerm_widen; [| | | exact P3]; lia. }
    destruct (IH l3 i') as [P4 S4]; [lia | lia | rewrite (SegPerm_length _ _ _ _ P123); lia | | |].
    + eapply LB_SegPerm; [exact Hb | exact P123 | exact HL].
    + apply (SortedSeg_agree l2); [| exact S2].
      intros k Hk. destruct P3 as [_ [O _]]. apply O. lia.
    + split; [eapply SegPerm_trans; eassumption | exact S4].
Qed.

Lemma partialInsertionSort_spec l a b :
  a < b -> b <= length l -> LB l a b ->
  SegPerm a b l (partialInsertionSort l a b).2 /\
  ((partialInsertionSort l a b).1 = true -> SortedSeg (partialInsertionSort l a b).2 a b).
Proof. intros Hab Hb HL. apply partialSteps_spec; [lia | lia | exact Hb | exact HL | apply SortedSeg_small; lia]. Qed.

Lemma scanLess_spec fuel l a i j :
  S j - i <= fuel ->
  i <= scanLess fuel l a i j <= Nat.max i (S j) /\
  (forall k, i <= k < scanLess fuel l a i j -> less l k a = true) /\
  (scanLess fuel l a i j <= j -> less l (scanLess fuel l a i j) a = false).
Proof.
  revert i. induction fuel as [| f IH]; intros i Hf; cbn [scanLess].
  - split; [lia |]. split; [intros; lia | lia].
  - destruct (i <=? j) eqn:E1; cbn [andb].
    + apply Nat.leb_le in E1. destruct (less l i a) eqn:E2.
      * destruct (IH (S i)) as [H1 [H2 H3]]; [lia |]. split; [lia |]. split; [| exact H3].
        intros k Hk. destruct (decide (k = i)) as [-> |]; [exact E2 | apply H2; lia].
      * split; [lia |]. split; [intros; lia | intros _; exact E2].
    + apply Nat.leb_gt in E1. split; [lia |]. split; [intros; lia | lia].
Qed.

Lemma scanNotLess_spec fuel l a i j :
  1 <= i -> S j - i <= fuel ->
  Nat.min j (i - 1) <= scanNotLess fuel l a i j <= j /\
  (forall k, scanNotLess fuel l a i j < k <= j -> less l k a = false) /\
  (i <= scanNotLess fuel l a i j -> less l (scanNotLess fuel l a i j) a = true).
Proof.
  revert j. induction fuel as [| f IH]; intros j Hi Hf; cbn [scanNotLess].
  - split; [lia |]. split; [intros; lia | lia].
  - destruct (i <=? j) eqn:E1; cbn [andb].
    + apply Nat.leb_le in E1. destruct (less l j a) eqn:E2; cbn [negb].
      * split; [lia |]. split; [intros; lia | intros _; exact E2].
      * destruct (IH (j - 1)) as [H1 [H2 H3]]; [lia | lia |]. split; [lia |]. split; [| exact H3].
        intros k Hk. destruct (decide (k = j)) as [-> |]; [exact E2 | apply H2; lia].
    + apply Nat.leb_gt in E1. split; [lia |]. split; [intros; lia | lia].
Qed.

Lemma PInv_swap l a b i j :
  b <= length l -> PInv l a b i j -> i < j -> less l i a = false -> less l j a = true ->
  PInv (swap l i j) a b (S i) (j - 1).
Proof.
  intros Hb [H1 [H2 [H3 [H4 H5]]]] Hij Ei Ej.
  split; [lia |]. split; [lia |]. split; [lia |]. split.
  - intros k Hk. rewrite less_swap by lia. repeat case_decide; try lia.
    + exact Ej.
    + apply H4. lia.
  - intros k Hk. rewrite less_swap by lia. repeat case_decide; try lia.
    + exact Ei.
    + apply H5. lia.
Qed.

Lemma partitionLoop_spec a b fuel l i j :
  b <= length l -> PInv l a b i j -> S j - i <= fuel ->
  SegPerm a b l (partitionLoop fuel l a i j).1 /\
  PInv (partitionLoop fuel l a i j).1 a b (S (partitionLoop fuel l a i j).2) (partitionLoop fuel l a i j).2.
Proof.
  revert l i j. induction fuel as [| f IH]; intros l i j Hb HP Hf; cbn [partitionLoop].
  - destruct HP as [H1 [H2 [H3 [H4 H5]]]]. cbn [fst snd].
    split; [apply SegPerm_refl |]. replace i with (S j) in * by lia.
    split; [lia |]. split; [lia |]. split; [lia |]. split; assumption.
  - destruct HP as [H1 [H2 [H3 [H4 H5]]]].
    destruct (scanLess_spec (S j - i) l a i j) as [I1 [I2 I3]]; [lia |].
    set (i1 := scanLess (S j - i) l a i j) in *.
    destruct (scanNotLess_spec (S j - i1) l a i1 j) as [J1 [J2 J3]]; [lia | lia |].
    set (j1 := scanNotLess (S j - i1) l a i1 j) in *.
    assert (HP1 : PInv l a b i1 j1).
    { split; [lia |]. split; [lia |]. split; [lia |]. split.
      - intros k Hk. destruct (decide (k < i)); [apply H4; lia | apply I2; lia].
      - intros k Hk. destruct (decide (k <= j)); [apply J2; lia | apply H5; lia]. }
    destruct (j1 <? i1) eqn:E; [apply Nat.ltb_lt in E | apply Nat.ltb_ge in E]; cbn [fst snd].
    + split; [apply SegPerm_refl |]. destruct HP1 as [K1 [K2 [K3 [K4 K5]]]].
      split; [lia |]. split; [lia |]. split; [lia |]. split; [| exact K5].
      intros k Hk. apply K4. lia.
    + assert (Ei : less l i1 a = false) by (apply I3; lia).
      assert (Ej : less l j1 a = true) by (apply J3; lia).
      assert (Hne : i1 < j1) by (destruct (decide (i1 = j1)) as [Q |]; [rewrite Q in Ei; congruence | lia]).
      destruct (IH (swap l i1 j1) (S i1) (j1 - 1)) as [P S];
        [rewrite length_swap; exact Hb | apply PInv_swap; assumption | lia |].
      split; [| exact S].
      eapply SegPerm_trans; [apply (SegPerm_swap _ _ _ i1 j1); lia | exact P].
Qed.

Lemma partition_final l a b j :
  b <= length l -> PInv l a b (S j) j ->
  SegPerm a b l (swap l j a) /\
  AllSeg (fun x => float64Less (at_ (swap l j a) j) x = false) (swap l j a) a j /\
  AllSeg (fun x => float64Less x (at_ (swap l j a) j) = false) (swap l j a) (S j) b.
Proof.
  intros Hb [H1 [H2 [H3 [H4 H5]]]].
  split; [apply SegPerm_swap; lia |]. split.
  - intros k Hk. rewrite !at_swap by lia. repeat case_decide; try lia.
    + apply lt_asym. apply (H4 j). lia.
    + apply lt_asym. apply (H4 k). lia.
  - intros k Hk. rewrite !at_swap by lia. repeat case_decide; try lia. apply (H5 k). lia.
Qed.

Lemma partition_spec l a b pivot :
  a <= pivot < b -> b <= length l ->
  SegPerm a b l (partition l a b pivot).2 /\
  Partitioned (partition l a b pivot).2 a b (partition l a b pivot).1.1.
Proof.
  intros Hp Hb. unfold partition.
  set (l0 := swap l a pivot).
  assert (P0 : SegPerm a b l l0) by (apply SegPerm_swap; lia).
  assert (L0 : length l0 = length l) by apply length_swap.
  destruct (scanLess_spec (b - a) l0 a (S a) (b - 1)) as [I1 [I2 I3]]; [lia |].
  set (i := scanLess (b - a) l0 a (S a) (b - 1)) in *.
  destruct (scanNotLess_spec (b - a) l0 a i (b - 1)) as [J1 [J2 J3]]; [lia | lia |].
  set (j := scanNotLess (b - a) l0 a i (b - 1)) in *.
  assert (HP : PInv l0 a b i j).
  { split; [lia |]. split; [lia |]. split; [lia |]. split.
    - intros k Hk. apply I2. lia.
    - intros k Hk. apply J2. lia. }
  destruct (j <? i) eqn:E; [apply Nat.ltb_lt in E | apply Nat.ltb_ge in E]; cbn [fst snd].
  - assert (HP' : PInv l0 a b (S j) j).
    { destruct HP as [K1 [K2 [K3 [K4 K5]]]]. split; [lia |]. split; [lia |]. split; [lia |].
      split; [intros k Hk; apply K4; lia | exact K5]. }
    destruct (partition_final l0 a b j) as [P1 [A1 A2]]; [lia | exact HP' |].
    split; [eapply SegPerm_trans; eassumption |]. split; [lia |]. split; assumption.
  - assert (Ei : less l0 i a = false) by (apply I3; lia).
    assert (Ej : less l0 j a = true) by (apply J3; lia).
    assert (Hne : i < j) by (destruct (decide (i = j)) as [Q |]; [rewrite Q in Ei; congruence | lia]).
    destruct (partitionLoop_spec a b (b - a) (swap l0 i j) (S i) (j - 1)) as [P2 HP2];
      [rewrite length_swap; lia | apply PInv_swap; [lia | assumption | assumption | assumption | assumption] | lia |].
    destruct (partitionLoop (b - a) (swap l0 i j) a (S i) (j - 1)) as [l2 j2] eqn:EL. cbn [fst snd] in *.
    assert (L2 : length l2 = length l)
      by (rewrite (SegPerm_length _ _ _ _ P2), length_swap; exact L0).
    destruct (partition_final l2 a b j2) as [P3 [A1 A2]]; [lia | exact HP2 |].
    split.
    + eapply SegPerm_trans; [exact P0 |]. eapply SegPerm_trans; [apply (SegPerm_swap _ _ _ i j); lia |].
      eapply SegPerm_trans; eassumption.
    + destruct HP2 as [K1 [K2 [K3 _]]]. split; [lia |]. split; assumption.
Qed.

Lemma scanNotGreater_spec fuel l a i j :
  S j - i <= fuel ->
  i <= scanNotGreater fuel l a i j <= Nat.max i (S j) /\
  (forall k, i <= k < scanNotGreater fuel l a i j -> less l a k = false) /\
  (scanNotGreater fuel l a i j <= j -> less l a (scanNotGreater fuel l a i j) = true).
Proof.
  revert i. induction fuel as [| f IH]; intros i Hf; cbn [scanNotGreater].
  - split; [lia |]. split; [intros; lia | lia].
  - destruct (i <=? j) eqn:E1; cbn [andb].
    + apply Nat.leb_le in E1. destruct (less l a i) eqn:E2; cbn [negb].
      * split; [lia |]. split; [intros; lia | intros _; exact E2].
      * destruct (IH (S i)) as [H1 [H2 H3]]; [lia |]. split; [lia |]. split; [| exact H3].
        intros k Hk. destruct (decide (k = i)) as [-> |]; [exact E2 | apply H2; lia].
    + apply Nat.leb_gt in E1. split; [lia |]. split; [intros; lia | lia].
Qed.

Lemma scanGreater_spec fuel l a i j :
  1 <= i -> S j - i <= fuel ->
  Nat.min j (i - 1) <= scanGreater fuel l a i j <= j /\
  (forall k, scanGreater fuel l a i j < k <= j -> less l a k = true) /\
  (i <= scanGreater fuel l a i j -> less l a (scanGreater fuel l a i j) = false).
Proof.
  revert j. induction fuel as [| f IH]; intros j Hi Hf; cbn [scanGreater].
  - split; [lia |]. split; [intros; lia | lia].
  - destruct (i <=? j) eqn:E1; cbn [andb].
    + apply Nat.leb_le in E1. destruct (less l a j) eqn:E2.
      * destruct (IH (j - 1)) as [H1 [H2 H3]]; [lia | lia |]. split; [lia |]. split; [| exact H3].
        intros k Hk. destruct (decide (k = j)) as [-> |]; [exact E2 | apply H2; lia].
      * split; [lia |]. split; [intros; lia | intros _; exact E2].
    + apply Nat.leb_gt in E1. split; [lia |]. split; [intros; lia | lia].
Qed.

Lemma partitionEqualLoop_spec a b fuel l i j :
  b <= length l -> EInv l a b i j -> S j - i <= fuel ->
  SegPerm a b l (partitionEqualLoop fuel l a i j).1 /\
  EInv (partitionEqualLoop fuel l a i j).1 a b (partitionEqualLoop fuel l a i j).2
       ((partitionEqualLoop fuel l a i j).2 - 1).
Proof.
  revert l i j. induction fuel as [| f IH]; intros l i j Hb HP Hf; cbn [partitionEqualLoop].
  - destruct HP as [H1 [H2 [H3 [H4 H5]]]]. cbn [fst snd].
    split; [apply SegPerm_refl |]. replace i with (S j) in * by lia. replace (S j - 1) with j by lia.
    split; [lia |]. split; [lia |]. split; [lia |]. split; assumption.
  - destruct HP as [H1 [H2 [H3 [H4 H5]]]].
    destruct (scanNotGreater_spec (S j - i) l a i j) as [I1 [I2 I3]]; [lia |].
    set (i1 := scanNotGreater (S j - i) l a i j) in *.
    destruct (scanGreater_spec (S j - i1) l a i1 j) as [J1 [J2 J3]]; [lia | lia |].
    set (j1 := scanGreater (S j - i1) l a i1 j) in *.
    destruct (j1 <? i1) eqn:E; [apply Nat.ltb_lt in E | apply Nat.ltb_ge in E]; cbn [fst snd].
    + split; [apply SegPerm_refl |].
      split; [lia |]. split; [lia |]. split; [lia |]. split.
      * intros k Hk. destruct (decide (k < i)); [apply H4; lia | apply I2; lia].
      * intros k Hk. destruct (decide (k <= j)); [apply J2; lia | apply H5; lia].
    + assert (Ei : less l a i1 = true) by (apply I3; lia).
      assert (Ej : less l a j1 = false) by (apply J3; lia).
      assert (Hne : i1 < j1) by (destruct (decide (i1 = j1)) as [Q |]; [rewrite Q in Ei; congruence | lia]).
      destruct (IH (swap l i1 j1) (S i1) (j1 - 1)) as [P S]; [rewrite length_swap; exact Hb | | lia |].
      * split; [lia |]. split; [lia |]. split; [lia |]. split.
        { intros k Hk. rewrite less_swap by lia. repeat case_decide; try lia.
          - exact Ej.
          - destruct (decide (k < i)); [apply H4; lia | apply I2; lia]. }
        { intros k Hk. rewrite less_swap by lia. repeat case_decide; try lia.
          - exact Ei.
          - destruct (decide (k <= j)); [apply J2; lia | apply H5; lia]. }
      * split; [| exact S].
        eapply SegPerm_trans; [apply (SegPerm_swap _ _ _ i1 j1); lia | exact P].
Qed.

Lemma partitionEqual_spec l a b pivot :
  a <= pivot < b -> b <= length l ->
  SegPerm a b l (partitionEqual l a b pivot).1 /\
  a < (partitionEqual l a b pivot).2 <= b /\
  AllSeg (fun x => float64Less (at_ (partitionEqual l a b pivot).1 a) x = false)
    (partitionEqual l a b pivot).1 a (partitionEqual l a b pivot).2 /\
  AllSeg (fun x => float64Less (at_ (partitionEqual l a b pivot).1 a) x = true)
    (partitionEqual l a b pivot).1 (partitionEqual l a b pivot).2 b.
Proof.
  intros Hp Hb. unfold partitionEqual.
  set (l0 := swap l a pivot).
  assert (P0 : SegPerm a b l l0) by (apply SegPerm_swap; lia).
  destruct (partitionEqualLoop_spec a b (b - a) l0 (S a) (b - 1)) as [P1 HE];
    [unfold l0; rewrite length_swap; lia | | lia |].
  { split; [lia |]. split; [lia |]. split; [lia |]. split; intros k Hk; lia. }
  destruct (partitionEqualLoop (b - a) l0 a (S a) (b - 1)) as [l1 m] eqn:EL. cbn [fst snd] in *.
  destruct HE as [K1 [K2 [K3 [K4 K5]]]].
  split; [eapply SegPerm_trans; eassumption |]. split; [lia |]. split.
  - intros k Hk. destruct (decide (k = a)) as [-> |]; [apply lt_irrefl | apply (K4 k); lia].
  - intros k Hk. apply (K5 k). lia.
Qed.

Lemma lookup_swap_other l i j k : k <> i -> k <> j -> swap l i j !! k = l !! k.
Proof.
  intros Hi Hj. destruct (decide (i < length l /\ j < length l)) as [[Hi' Hj'] | N].
  - rewrite lookup_swap by assumption. repeat case_decide; try lia. reflexivity.
  - rewrite swap_out by exact N. reflexivity.
Qed.

Lemma partitionEqualLoop_keeps fuel l a i j :
  a < i -> (partitionEqualLoop fuel l a i j).1 !! a = l !! a.
Proof.
  revert l i j. induction fuel as [| f IH]; intros l i j Hi; cbn [partitionEqualLoop].
  - reflexivity.
  - pose proof (proj1 (scanNotGreater_spec (S j - i) l a i j ltac:(lia))).
    set (i1 := scanNotGreater (S j - i) l a i j) in *.
    pose proof (proj1 (scanGreater_spec (S j - i1) l a i1 j ltac:(lia) ltac:(lia))).
    set (j1 := scanGreater (S j - i1) l a i1 j) in *.
    destruct (j1 <? i1) eqn:E; [reflexivity |]. apply Nat.ltb_ge in E.
    rewrite IH by lia. apply lookup_swap_other; lia.
Qed.

Lemma partitionEqual_pivot l a b pivot :
  a <= pivot < b -> b <= length l ->
  at_ (partitionEqual l a b pivot).1 a = at_ l pivot.
Proof.
  intros Hp Hb. unfold partitionEqual. unfold at_ at 1.
  rewrite partitionEqualLoop_keeps by lia. rewrite lookup_swap by lia.
  case_decide; [reflexivity | lia].
Qed.

Lemma sorted_around l a mid b :
  Partitioned l a b mid -> SortedSeg l a mid -> SortedSeg l (S mid) b -> SortedSeg l a b.
Proof.
  intros [Hm [HL HR]] S1 S2.
  apply (SortedSeg_join _ _ mid); [exact S1 | |].
  - apply (SortedSeg_join _ _ (S mid)); [apply SortedSeg_small; lia | exact S2 |].
    intros Hk. unfold less. replace (S mid - 1) with mid by lia. apply HR. lia.
  - intros Hk. unfold less. apply HL. lia.
Qed.

Lemma Partitioned_SegPerm l l' a b mid x y :
  b <= length l -> Partitioned l a b mid -> SegPerm x y l l' ->
  (x = a /\ y = mid) \/ (x = S mid /\ y = b) -> Partitioned l' a b mid.
Proof.
  intros Hb [Hm [HL HR]] P Hxy.
  assert (O : forall k, k < x \/ y <= k -> l' !! k = l !! k) by (destruct P as [_ [O _]]; exact O).
  assert (Emid : at_ l' mid = at_ l mid) by (apply at_agree, O; destruct Hxy; lia).
  split; [exact Hm |]. rewrite Emid. destruct Hxy as [[-> ->] | [-> ->]].
  - split; [eapply AllSeg_SegPerm; [| exact P | exact HL]; lia |].
    eapply AllSeg_agree; [| exact HR]. intros k Hk. apply O. lia.
  - split; [eapply AllSeg_agree; [| exact HL]; intros k Hk; apply O; lia |].
    eapply AllSeg_SegPerm; [| exact P | exact HR]; lia.
Qed.

Lemma pdqsort_spec fuel : forall l a b limit wb wp,
  a <= b -> b <= length l -> b - a < fuel -> LB l a b ->
  SegPerm a b l (pdqsort fuel l a b limit wb wp) /\ SortedSeg (pdqsort fuel l a b limit wb wp) a b.
Proof.
  induction fuel as [| f IH]; intros l a b limit wb wp Hab Hb Hf HL; [lia |]. cbn [pdqsort].
  destruct (b - a <=? 12) eqn:E12; [apply insertionSort_spec; assumption |].
  apply Nat.leb_gt in E12.
  destruct (Nat.eqb limit 0); [apply heapSort_spec; lia |].
  destruct (if negb wb then (breakPatterns l a b, limit - 1) else (l, limit)) as [l1 limit1] eqn:E1.
  assert (P1 : SegPerm a b l l1).
  { destruct wb; cbn [negb] in E1; injection E1; intros; subst; [apply SegPerm_refl | apply breakPatterns_spec; lia]. }
  assert (L1 : length l1 = length l) by exact (SegPerm_length _ _ _ _ P1).
  destruct (choosePivot l1 a b) as [pv hint] eqn:E2.
  pose proof (choosePivot_range l1 a b ltac:(lia)) as R2. rewrite E2 in R2. cbn [fst] in R2.
  destruct (match hint with
            | DecreasingHint => (reverseRange l1 a b, b - 1 - (pv - a), IncreasingHint)
            | _ => (l1, pv, hint) end) as [[l2 pv2] hint2] eqn:E3.
  assert (P2 : SegPerm a b l1 l2 /\ a <= pv2 < b).
  { destruct hint; injection E3; intros; subst; (split; [| lia]);
      [apply SegPerm_refl | apply SegPerm_refl | apply reverseRange_spec; lia]. }
  destruct P2 as [P2 R3].
  assert (L2 : length l2 = length l) by (rewrite (SegPerm_length _ _ _ _ P2); exact L1).
  assert (LB2 : LB l2 a b) by (eapply LB_SegPerm; [| exact P2 |]; [lia | eapply LB_SegPerm; [| exact P1 | exact HL]; lia]).
  assert (P12 : SegPerm a b l l2) by (eapply SegPerm_trans; eassumption).
  destruct (match hint2 with
            | IncreasingHint => if wb && wp then partialInsertionSort l2 a b else (false, l2)
            | _ => (false, l2) end) as [done l3] eqn:E4.
  assert (P3 : SegPerm a b l2 l3 /\ (done = true -> SortedSeg l3 a b)).
  { destruct hint2; try (injection E4; intros; subst; split; [apply SegPerm_refl | discriminate]).
    destruct (wb && wp); [| injection E4; intros; subst; split; [apply SegPerm_refl | discriminate]].
    destruct (partialInsertionSort_spec l2 a b) as [Q1 Q2]; [lia | lia | exact LB2 |].
    rewrite E4 in Q1, Q2. exact (conj Q1 Q2). }
  destruct P3 as [P3 S3].
  assert (P123 : SegPerm a b l l3) by (eapply SegPerm_trans; eassumption).
  assert (L3 : length l3 = length l) by exact (SegPerm_length _ _ _ _ P123).
  assert (LB3 : LB l3 a b) by (eapply LB_SegPerm; [| exact P123 | exact HL]; lia).
  destruct done; [split; [exact P123 | apply S3; reflexivity] |].
  destruct ((0 <? a) && negb (less l3 (a - 1) pv2)) eqn:E5.
  - apply andb_true_iff in E5. destruct E5 as [Ea Ep]. apply Nat.ltb_lt in Ea.
    apply negb_true_iff in Ep.
    destruct (partitionEqual_spec l3 a b pv2) as [P4 [Rm [AL AR]]]; [lia | lia |].
    pose proof (partitionEqual_pivot l3 a b pv2 ltac:(lia) ltac:(lia)) as Ep4.
    destruct (partitionEqual l3 a b pv2) as [l4 mid] eqn:E6. cbn [fst snd] in *.
    assert (L4 : length l4 = length l) by (rewrite (SegPerm_length _ _ _ _ P4); exact L3).
    set (p := at_ l4 a) in *.
    assert (Hd : at_ l4 (a - 1) = at_ l3 (a - 1))
      by (apply at_agree; destruct P4 as [_ [O _]]; apply O; lia).
    assert (LB4 : AllSeg (fun x => float64Less x (at_ l4 (a - 1)) = false) l4 a b)
      by (rewrite Hd; eapply AllSeg_SegPerm; [| exact P4 | apply LB3, Ea]; lia).
    assert (Ge : forall k, a <= k < b -> float64Less (at_ l4 k) p = false).
    { intros k Hk. apply (nlt_trans _ (at_ l4 (a - 1))).
      - rewrite Hd, Ep4. exact Ep.
      - apply LB4. exact Hk. }
    destruct (IH l4 mid b limit1 wb wp) as [P5 S5]; [lia | lia | lia | |].
    { intros Hm k Hk. destruct (float64Less (at_ l4 k) (at_ l4 (mid - 1))) eqn:C; [| reflexivity].
      destruct (lt_weak _ p _ C) as [C1 | C1].
      - rewrite (lt_asym _ _ (AR k ltac:(lia))) in C1. discriminate.
      - rewrite (AL (mid - 1) ltac:(lia)) in C1. discriminate. }
    set (l5 := pdqsort f l4 mid b limit1 wb wp) in *.
    assert (O5 : forall k, k < mid -> l5 !! k = l4 !! k) by (intros k Hk; destruct P5 as [_ [O _]]; apply O; lia).
    split.
    + eapply SegPerm_trans; [exact P123 |]. eapply SegPerm_trans; [exact P4 |].
      eapply SegPerm_widen; [| | | exact P5]; lia.
    + apply (SortedSeg_join _ _ mid); [| exact S5 |].
      * apply (SortedSeg_agree l4); [intros k Hk; apply O5; lia |].
        intros k Hk. unfold less. destruct (float64Less (at_ l4 k) (at_ l4 (k - 1))) eqn:C; [| reflexivity].
        destruct (lt_weak _ p _ C) as [C1 | C1].
        { rewrite (Ge k ltac:(lia)) in C1. discriminate. }
        { rewrite (AL (k - 1) ltac:(lia)) in C1. discriminate. }
      * intros Hm. unfold less. rewrite (at_agree l4 l5 (mid - 1)) by (apply O5; lia).
        assert (AR5 : AllSeg (fun x => float64Less p x = true) l5 mid b)
          by (eapply AllSeg_SegPerm; [| exact P5 | exact AR]; lia).
        destruct (float64Less (at_ l5 mid) (at_ l4 (mid - 1))) eqn:C; [| reflexivity].
        destruct (lt_weak _ p _ C) as [C1 | C1].
        { rewrite (lt_asym _ _ (AR5 mid ltac:(lia))) in C1. discriminate. }
        { rewrite (AL (mid - 1) ltac:(lia)) in C1. discriminate. }
  - destruct (partition_spec l3 a b pv2) as [P4 PP]; [lia | lia |].
    destruct (partition l3 a b pv2) as [[mid ap] l4] eqn:E6. cbn [fst snd] in *.
    assert (L4 : length l4 = length l) by (rewrite (SegPerm_length _ _ _ _ P4); exact L3).
    assert (LB4 : LB l4 a b) by (eapply LB_SegPerm; [| exact P4 | exact LB3]; lia).
    assert (Hm : a <= mid < b) by (destruct PP; assumption).
    assert (LBR : forall l', Partitioned l' a b mid -> LB l' (S mid) b).
    { intros l' [_ [_ HR]] _. replace (S mid - 1) with mid by lia. exact HR. }
    destruct (mid - a <? b - mid).
    + destruct (IH l4 a mid limit1 true true) as [P5 S5];
        [lia | lia | lia | eapply LB_sub; [| exact LB4]; lia |].
      set (l5 := pdqsort f l4 a mid limit1 true true) in *.
      assert (PP5 : Partitioned l5 a b mid) by (eapply Partitioned_SegPerm; [| exact PP | exact P5 | left; split; reflexivity]; lia).
      assert (L5 : length l5 = length l) by (rewrite (SegPerm_length _ _ _ _ P5); exact L4).
      destruct (IH l5 (S mid) b limit1 (Nat.div (b - a) 8 <=? mid - a) ap) as [P6 S6];
        [lia | lia | lia | apply LBR, PP5 |].
      set (l6 := pdqsort f l5 (S mid) b limit1 (Nat.div (b - a) 8 <=? mid - a) ap) in *.
      split.
      * eapply SegPerm_trans; [exact P123 |]. eapply SegPerm_trans; [exact P4 |].
        eapply SegPerm_trans; [eapply SegPerm_widen; [| | | exact P5]; lia |].
        eapply SegPerm_widen; [| | | exact P6]; lia.
      * apply (sorted_around _ _ mid); [| | exact S6].
        { eapply Partitioned_SegPerm; [| exact PP5 | exact P6 | right; split; reflexivity]; lia. }
        { apply (SortedSeg_agree l5); [| exact S5]. intros k Hk. destruct P6 as [_ [O _]]. apply O. lia. }
    + destruct (IH l4 (S mid) b limit1 true true) as [P5 S5]; [lia | lia | lia | apply LBR, PP |].
      set (l5 := pdqsort f l4 (S mid) b limit1 true true) in *.
      assert (PP5 : Partitioned l5 a b mid) by (eapply Partitioned_SegPerm; [| exact PP | exact P5 | right; split; reflexivity]; lia).
      assert (L5 : length l5 = length l) by (rewrite (SegPerm_length _ _ _ _ P5); exact L4).
      assert (LB5 : LB l5 a b) by (eapply LB_SegPerm; [| eapply SegPerm_widen; [| | | exact P5]; lia | exact LB4]; lia).
      destruct (IH l5 a mid limit1 (Nat.div (b - a) 8 <=? b - mid) ap) as [P6 S6];
        [lia | lia | lia | eapply LB_sub; [| exact LB5]; lia |].
      set (l6 := pdqsort f l5 a mid limit1 (Nat.div (b - a) 8 <=? b - mid) ap) in *.
      split.
      * eapply SegPerm_trans; [exact P123 |]. eapply SegPerm_trans; [exact P4 |].
        eapply SegPerm_trans; [eapply SegPerm_widen; [| | | exact P5]; lia |].
        eapply SegPerm_widen; [| | | exact P6]; lia.
      * apply (sorted_around _ _ mid); [| exact S6 |].
        { eapply Partitioned_SegPerm; [| exact PP5 | exact P6 | left; split; reflexivity]; lia. }
        { apply (SortedSeg_agree l5); [| exact S5]. intros k Hk. destruct P6 as [_ [O _]]. apply O. lia. }
Qed.

Lemma seg_whole l : seg l 0 (length l) = l.
Proof. unfold seg. rewrite Nat.sub_0_r, drop_0. apply take_ge. lia. Qed.

Lemma sortFloat64s_perm l : sortFloat64s l ≡ₚ l.
Proof.
  unfold sortFloat64s.
  destruct (pdqsort_spec (S (length l)) l 0 (length l) (bitsLen (length l)) true true)
    as [[L [_ P]] _]; [lia | lia | lia | intros H; lia |].
  set (s := pdqsort (S (length l)) l 0 (length l) (bitsLen (length l)) true true) in *.
  transitivity (seg s 0 (length l)); [rewrite <- L, seg_whole; reflexivity |].
  rewrite P, seg_whole. reflexivity.
Qed.

Lemma sortFloat64s_sorted l i x y :
  sortFloat64s l !! i = Some x -> sortFloat64s l !! S i = Some y -> float64Less y x = false.
Proof.
  unfold sortFloat64s. intros Hx Hy.
  destruct (pdqsort_spec (S (length l)) l 0 (length l) (bitsLen (length l)) true true)
    as [[L _] Hs]; [lia | lia | lia | intros H; lia |].
  set (s := pdqsort (S (length l)) l 0 (length l) (bitsLen (length l)) true true) in *.
  assert (Hi : S i < length l) by (rewrite <- L; eapply lookup_lt_Some; exact Hy).
  specialize (Hs (S i) ltac:(lia)). unfold less, at_ in Hs. replace (S i - 1) with i in Hs by lia.
  rewrite Hx, Hy in Hs. exact Hs.
Qed.

Local Open Scope string_scope.

(* ------------------------------------------------------------------ *)
(** ** calculateStatistics *)

Lemma fold_distribution_lookup ps (d : gmap string nat) p :
  fold_left (fun d p => <[p := S (default 0%nat (d !! p))]> d) ps d !! p =
  match count_occ string_dec ps p with
  | O => d !! p
  | S _ => Some (default 0%nat (d !! p) + count_occ string_dec ps p)%nat
  end.
Proof.
  revert d. induction ps as [| x ps IH]; intros d; simpl; [reflexivity |].
  rewrite IH. destruct (string_dec x p) as [-> | Hne].
  - rewrite lookup_insert_eq.
    destruct (count_occ string_dec ps p); simpl; f_equal; lia.
  - rewrite lookup_insert_ne by exact Hne. reflexivity.
Qed.

(** The distribution counts every literal token. *)
Lemma distributionOf_lookup ps p :
  distributionOf ps !! p =
  if Nat.eqb (count_occ string_dec ps p) 0 then None else Some (count_occ string_dec ps p).
Proof.
  unfold distributionOf. rewrite fold_distribution_lookup.
  destruct (count_occ string_dec ps p); reflexivity.
Qed.

Lemma distributionOf_perm l l' : l ≡ₚ l' -> distributionOf l = distributionOf l'.
Proof.
  intros Hp. apply map_eq; intros p. rewrite !distributionOf_lookup.
  rewrite (proj1 (Permutation_count_occ string_dec l l') Hp p). reflexivity.
Qed.

Lemma length_sortFloat64s l : length (sortFloat64s l) = length l.
Proof. apply Permutation_length, sortFloat64s_perm. Qed.

(** A "NaN" token counts as numeric, so the average and the median are NaN
    where the claim asks for 0 and "N/A"; a token out of float64 range
    ("1e400") is not numeric. *)
Lemma statistics_nan_token :
  PrimFloat.is_nan (calculateStatistics ["NaN"]).1.1 = true /\
  (calculateStatistics ["NaN"]).1.2 = "NaN" /\
  numericPoints ["1e400"] = [].
Proof. repeat split; vm_compute; reflexivity. Qed.

(** C6 (as the code has it): the numeric tokens are those
    [strconv.ParseFloat] accepts, hexadecimal literals and NaN, Inf and
    Infinity in any case included, a literal out of float64 range excluded,
    in input order; the average is their float64 sum divided by their count,
    0 if none; the median is "N/A" if none, otherwise taken from their
    ascending sort by [sort.Float64s] (a permutation with no element less
    than the one before it): the middle one for an odd count, the mean of
    the two middle ones for an even count, both formatted with "%.1f"; the
    distribution counts every literal token. The two examples hold; a NaN
    token makes the average and the median NaN; and the sort is Go's
    pdqsort, which leaves +0 before -0 on the thirteen votes below. *)
Theorem calculateStatistics_spec (ps : list string) :
  numericPoints ps = omap parseFloat ps /\
  (calculateStatistics ps).1.1 =
    match numericPoints ps with
    | [] => PrimFloat.zero
    | nums => (sumFloats nums / floatOfNat (length nums))%float
    end /\
  (calculateStatistics ps).1.2 =
    match numericPoints ps with
    | [] => "N/A"
    | nums =>
        let s := sortFloat64s nums in
        let mid := Nat.div (length nums) 2 in
        if Nat.even (length nums)
        then formatF1 ((default PrimFloat.zero (s !! (mid - 1)%nat)
                        + default PrimFloat.zero (s !! mid)) / PrimFloat.two)%float
        else formatF1 (default PrimFloat.zero (s !! mid))
    end /\
  sortFloat64s (numericPoints ps) ≡ₚ numericPoints ps /\
  (forall i x y, sortFloat64s (numericPoints ps) !! i = Some x ->
     sortFloat64s (numericPoints ps) !! S i = Some y -> float64Less y x = false) /\
  (forall p, (calculateStatistics ps).2 !! p =
     if Nat.eqb (count_occ string_dec ps p) 0 then None else Some (count_occ string_dec ps p)) /\
  calculateStatistics ["1"; "2"; "?"; "5"; "?"] =
    ((8 / 3)%float, "2.0",
     list_to_map [("1", 1%nat); ("2", 1%nat); ("?", 2%nat); ("5", 1%nat)]) /\
  (calculateStatistics ["2"; "3"; "5"; "8"]).1.2 = "4.0" /\
  numericPoints ["0x1p-2"; "Inf"; "-infinity"; "+INF"; "1e400"; "?"] =
    [0.25%float; infinity; neg_infinity; infinity] /\
  map PrimFloat.is_nan (numericPoints ["nan"; "NaN"; "NAN"; "nAn"]) = [true; true; true; true] /\
  PrimFloat.is_nan (calculateStatistics ["1"; "NaN"]).1.1 = true /\
  (calculateStatistics ["1"; "NaN"]).1.2 = "NaN" /\
  (calculateStatistics ["0"; "-0"; "1"; "2"; "-1"; "-2"; "-1"; "-1"; "-1"; "3"; "1"; "3"; "3"]).1.2 = "0.0".
Proof.
  split; [reflexivity |].
  split.
  { unfold calculateStatistics, averageOf; simpl.
    destruct (numericPoints ps); reflexivity. }
  split.
  { unfold calculateStatistics, medianOf; simpl.
    destruct (numericPoints ps) as [| x l] eqn:E; [reflexivity |].
    rewrite length_sortFloat64s. reflexivity. }
  split; [apply sortFloat64s_perm |].
  split; [apply sortFloat64s_sorted |].
  split; [intros p; apply distributionOf_lookup |].
  repeat split; vm_compute; reflexivity.
Qed.

(** Two orders of the same votes: float64 addition is not associative, so
    the averages differ in the last bit; and -0 and +0 are not less than one
    another, so on three values (sorted by insertion) they keep their input
    order and the medians print "-0.0" and "0.0". *)
Lemma statistics_order_dependent :
  ["0.1"; "0.2"; "0.3"] ≡ₚ ["0.3"; "0.2"; "0.1"] /\
  (calculateStatistics ["0.1"; "0.2"; "0.3"]).1.1 <>
    (calculateStatistics ["0.3"; "0.2"; "0.1"]).1.1 /\
  ["0"; "-0"; "0"] ≡ₚ ["-0"; "0"; "0"] /\
  (calculateStatistics ["0"; "-0"; "0"]).1.2 = "-0.0" /\
  (calculateStatistics ["-0"; "0"; "0"]).1.2 = "0.0".
Proof.
  split; [exact (Permutation_rev ["0.1"; "0.2"; "0.3"]) |].
  split.
  { intros H. apply (f_equal Prim2SF) in H. vm_compute in H. discriminate H. }
  split; [apply perm_swap |].
  split; vm_compute; reflexivity.
Qed.

(** C9 (as the code has it): reordering the votes leaves the distribution
    unchanged and permutes the numeric values, so their count, their sorted
    multiset and whether the median is "N/A" do not change; the average
    and the median string themselves can differ. *)
Theorem statistics_permutation (l l' : list string) :
  l ≡ₚ l' ->
  (calculateStatistics l).2 = (calculateStatistics l').2 /\
  numericPoints l ≡ₚ numericPoints l' /\
  sortFloat64s (numericPoints l) ≡ₚ sortFloat64s (numericPoints l') /\
  (numericPoints l = [] ->
   (calculateStatistics l).1.2 = "N/A" /\ (calculateStatistics l').1.2 = "N/A").
Proof.
  intros Hp.
  assert (Hn : numericPoints l ≡ₚ numericPoints l') by (unfold numericPoints; rewrite Hp; reflexivity).
  split; [apply distributionOf_perm, Hp |].
  split; [exact Hn |].
  split; [rewrite !sortFloat64s_perm; exact Hn |].
  intros H0. rewrite H0 in Hn. apply Permutation_nil in Hn.
  unfold calculateStatistics; simpl. rewrite H0, Hn. split; reflexivity.
Qed.

Lemma statistics_permutation_witness :
  ["1"; "?"; "3"] ≡ₚ ["3"; "1"; "?"] /\
  (calculateStatistics ["1"; "?"; "3"]).2 = (calculateStatistics ["3"; "1"; "?"]).2.
Proof.
  assert (Hp : ["1"; "?"; "3"] ≡ₚ ["3"; "1"; "?"]).
  { symmetry; exact (Permutation_cons_append ["1"; "?"] "3"). }
  split; [exact Hp |].
  exact (proj1 (statistics_permutation _ _ Hp)).
Defined.

(* ------------------------------------------------------------------ *)
(** ** connectionLimitMiddleware *)

Lemma filter_length_insert {A} (f : A -> bool) (l : list A) i x y :
  l !! i = Some x ->
  (length (List.filter f (<[i := y]> l)) + (if f x then 1 else 0)
   = length (List.filter f l) + (if f y then 1 else 0))%nat.
Proof.
  revert i. induction l as [|a l IH]; intros [|i] H; simpl in *; try discriminate.
  - injection H as ->. destruct (f x), (f y); simpl; lia.
  - specialize (IH i H). destruct (f a); simpl; lia.
Qed.

Lemma filter_nil_Forall {A} (P : A -> Prop) (f : A -> bool) l :
  Forall P l -> (forall x, P x -> f x = false) -> List.filter f l = [].
Proof.
  intros HF Hf. induction HF as [|x l Hx _ IHl]; simpl; [done|]. rewrite (Hf x Hx). exact IHl.
Qed.

(** Every atomic operation keeps the counters in step with the sessions. *)
Lemma connStep_inv c ss i s :
  ss !! i = Some s -> connInv c ss ->
  connInv (connStep c s).1 (<[i := (connStep c s).2]> ss).
Proof.
  intros Hi [Hg Hip].
  assert (G : forall y, (globalHolders (<[i:=y]> ss) + (if holdsGlobal (cPc s) then 1 else 0)
                       = globalHolders ss + (if holdsGlobal (cPc y) then 1 else 0))%Z).
  { intros y. unfold globalHolders.
    pose proof (filter_length_insert (fun s => holdsGlobal (cPc s)) ss i s y Hi) as E.
    destruct (holdsGlobal (cPc s)), (holdsGlobal (cPc y)); simpl in *; lia. }
  assert (I : forall y ip, (ipHolders (<[i:=y]> ss) ip
        + (if holdsIP (cPc s) && String.eqb (clientIP s) ip then 1 else 0)
        = ipHolders ss ip + (if holdsIP (cPc y) && String.eqb (clientIP y) ip then 1 else 0))%Z).
  { intros y ip. unfold ipHolders.
    pose proof (filter_length_insert
                  (fun s => holdsIP (cPc s) && String.eqb (clientIP s) ip) ss i s y Hi) as E.
    destruct (holdsIP (cPc s) && String.eqb (clientIP s) ip),
             (holdsIP (cPc y) && String.eqb (clientIP y) ip); simpl in *; lia. }
  destruct s as [sip pc]; destruct pc; cbn [cPc clientIP holdsGlobal holdsIP andb] in G, I;
    cbn [connStep cPc clientIP]; repeat case_match; cbn [fst snd];
    match goal with |- context [<[i:=?y]> ss] => pose proof (G y) as Gy; pose proof (I y) as Iy end;
    cbn [cPc clientIP holdsGlobal holdsIP andb] in Gy, Iy;
    (split; [ | intros ip; specialize (Iy ip); specialize (Hip ip)]);
    cbn [connectionCount addGlobal addIP]; try lia.
  all: unfold ipCountOf in *; cbn [connectionsByIP addIP addGlobal] in *.
  all: try lia.
  all: destruct (String.eqb_spec sip ip) as [->|Hne];
    [rewrite lookup_insert_eq | rewrite lookup_insert_ne by congruence];
    unfold ipCountOf in *; simpl in *; try lia;
    match goal with H : _ !! _ = None |- _ => rewrite H in Hip end;
    simpl in *; lia.
Qed.

Lemma connRun_inv c ss sched :
  connInv c ss -> connInv (connRun c ss sched).1 (connRun c ss sched).2.
Proof.
  revert c ss. induction sched as [|i sched IH]; intros c ss H; simpl; [exact H|].
  destruct (ss !! i) as [s|] eqn:Hi; [|apply IH, H].
  pose proof (connStep_inv c ss i s Hi H) as H'.
  destruct (connStep c s) as [c' s']. apply IH, H'.
Qed.

(** Under every interleaving of the sessions' atomic operations,
    [connectionCount] is the number of sessions that incremented it and have
    not yet run the deferred decrement, and each IP's counter is the number
    of sessions from that IP inside the handler. Once every session has
    returned, every counter is back at 0: the per-IP rejection path also
    undoes its global increment. *)
Theorem connectionCounters_exact ss sched c ss' :
  Forall (fun s => cPc s = ConnStart) ss ->
  connRun initialCounters ss sched = (c, ss') ->
  connectionCount c = globalHolders ss' /\ (forall ip, ipCountOf c ip = ipHolders ss' ip) /\
  (Forall (fun s => cPc s = ConnRefused \/ cPc s = ConnClosed) ss' ->
   connectionCount c = 0%Z /\ forall ip, ipCountOf c ip = 0%Z).
Proof.
  intros Hs Hrun.
  assert (H0 : connInv initialCounters ss).
  { split.
    - unfold globalHolders. rewrite (filter_nil_Forall _ _ _ Hs); [done|]. intros s ->. done.
    - intros ip. unfold ipHolders. rewrite (filter_nil_Forall _ _ _ Hs); [done|].
      intros s ->. done. }
  pose proof (connRun_inv _ _ sched H0) as [Hg Hip]. rewrite Hrun in Hg, Hip.
  simpl in Hg, Hip.
  split; [exact Hg|]. split; [exact Hip|].
  intros Hend. split.
  - rewrite Hg. unfold globalHolders. rewrite (filter_nil_Forall _ _ _ Hend); [done|].
    intros s [-> | ->]; done.
  - intros ip. rewrite Hip. unfold ipHolders. rewrite (filter_nil_Forall _ _ _ Hend); [done|].
    intros s [-> | ->]; done.
Qed.

Lemma connectionCounters_exact_witness :
  Forall (fun s => cPc s = ConnStart) raceSessions /\
  let r := connRun initialCounters raceSessions (busySchedule ++ [99; 100])%list in
  connectionCount r.1 = globalHolders r.2.
Proof.
  split; [vm_compute; repeat constructor|].
  apply (connectionCounters_exact raceSessions (busySchedule ++ [99; 100])%list); [|].
  - vm_compute. repeat constructor.
  - vm_compute. reflexivity.
Defined.

(** [connectionsByIP] never loses an entry: every address that reached
    [LoadOrStore] keeps its counter in the map, also after its count is
    back at 0. *)
Theorem connectionsByIP_grows c ss sched :
  dom (connectionsByIP c) ⊆ dom (connectionsByIP (connRun c ss sched).1).
Proof.
  revert c ss. induction sched as [|i sched IH]; intros c ss; simpl; [done|].
  destruct (ss !! i) as [s|]; [|apply IH].
  assert (Hs : dom (connectionsByIP c) ⊆ dom (connectionsByIP (connStep c s).1)).
  { destruct s as [ip pc]; destruct pc; cbn [connStep cPc clientIP]; repeat case_match;
      cbn [fst connectionsByIP addIP addGlobal]; rewrite ?dom_insert_L; set_solver. }
  destruct (connStep c s) as [c' s']. simpl in Hs. etransitivity; [exact Hs|apply IH].
Qed.

(** The global limit is checked before the increment, in a separate atomic
    operation. With 99 sessions inside their handlers, two new sessions
    that both load [connectionCount] before either adds 1 are both
    admitted: 101 connections. Run one after the other, the second is
    refused. *)
Theorem global_limit_race :
  let '(c, ss) := connRun initialCounters raceSessions
                    (busySchedule ++ [99; 100] ++ repeat 99 4 ++ repeat 100 4)%list in
  connectionCount c = 101%Z /\ inHandler ss = 101%nat /\
  let '(c2, ss2) := connRun initialCounters raceSessions
                      (busySchedule ++ admitOne 99 ++ admitOne 100)%list in
  connectionCount c2 = 100%Z /\ inHandler ss2 = 100%nat /\
  ss2 !! 100%nat = Some (mkConn "203.0.113.8" ConnRefused).
Proof. vm_compute. repeat split. Qed.

(** The same holds for the per-IP limit: with nine sessions of one address
    in their handlers, two more from that address that both load the IP
    counter before either adds 1 bring it to 11. Run one after the other,
    the second is rejected. *)
Theorem per_ip_limit_race :
  let '(c, ss) := connRun initialCounters sameIPSessions
                    (nineSchedule ++ repeat 9 4 ++ repeat 10 4 ++ [9; 10])%list in
  ipCountOf c "198.51.100.1" = 11%Z /\ inHandler ss = 11%nat /\
  let '(c2, ss2) := connRun initialCounters sameIPSessions
                      (nineSchedule ++ admitOne 9 ++ repeat 10 4)%list in
  ipCountOf c2 "198.51.100.1" = 10%Z /\ inHandler ss2 = 10%nat /\
  ss2 !! 10%nat = Some (mkConn "198.51.100.1" ConnRejectedIP).
Proof. vm_compute. repeat split. Qed.

(* ------------------------------------------------------------------ *)
(** ** validatePlayerName *)

Lemma validNameByte_range c : validNameByte c = true -> 32 <= c <= 122.
Proof.
  unfold validNameByte, between. intros H.
  rewrite !orb_true_iff, !andb_true_iff, !Nat.leb_le, !Nat.eqb_eq in H. lia.
Qed.

Lemma validBytes_no_control s : forallb validNameByte s = true -> hasControl s = false.
Proof.
  induction s as [|c s IH]; simpl; [done|].
  intros [Hc Hs]%andb_true_iff. apply validNameByte_range in Hc.
  rewrite (IH Hs). destruct (Nat.ltb_spec c 32); [lia|].
  destruct (Nat.eqb_spec c 127); [lia|]. destruct (Nat.eqb_spec c 194); [lia|]. done.
Qed.

(** [validatePlayerName] never reports control characters: a name that
    passes the character-class check consists of bytes from [a-zA-Z0-9 _-]
    only, none of which is a control character, so the [unicode.IsControl]
    loop can never fire. *)
Theorem validatePlayerName_no_control nm : validatePlayerName nm <> Some NameControlChars.
Proof.
  unfold validatePlayerName.
  destruct (Nat.ltb _ minNameLength); [discriminate|].
  destruct (Nat.ltb maxNameLength _); [discriminate|].
  destruct (validNameRegexMatch _) eqn:Hv; simpl; [|discriminate].
  unfold validNameRegexMatch in Hv. apply andb_true_iff in Hv as [_ Hv].
  rewrite (validBytes_no_control _ Hv).
  case_match; discriminate.
Qed.

(** [validatePlayerName] accepts a name exactly when its whitespace-trimmed
    bytes number between [minNameLength] and [maxNameLength], all lie in
    [a-zA-Z0-9 _-], and their lowercase form is none of the reserved
    names. *)
Theorem validatePlayerName_accepts nm :
  let s := trimSpace (bytesOf nm) in
  validatePlayerName nm = None <->
  (minNameLength <= length s <= maxNameLength /\ forallb validNameByte s = true /\
   forall r, r ∈ reservedNames -> List.map lowerByte s <> bytesOf r).
Proof.
  simpl. unfold validatePlayerName. set (s := trimSpace (bytesOf nm)).
  destruct (Nat.ltb_spec (length s) minNameLength).
  { split; [discriminate|]. intros [? _]. lia. }
  destruct (Nat.ltb_spec maxNameLength (length s)).
  { split; [discriminate|]. intros [? _]. lia. }
  unfold validNameRegexMatch.
  destruct (forallb validNameByte s) eqn:Hv.
  2: { rewrite andb_false_r. simpl. split; [discriminate|]. intros [_ [? _]]. discriminate. }
  assert (Hlen : Nat.eqb (length s) 0 = false).
  { apply Nat.eqb_neq. unfold minNameLength in *. lia. }
  rewrite Hlen. cbn [negb andb]. rewrite (validBytes_no_control _ Hv).
  destruct (existsb (fun r => bool_decide (List.map lowerByte s = bytesOf r)) reservedNames) eqn:Hr.
  - split; [discriminate|]. intros [_ [_ Hn]].
    apply existsb_exists in Hr as [r [Hin Hr]]. apply bool_decide_eq_true in Hr.
    exfalso. apply (Hn r); [apply list_elem_of_In; exact Hin | exact Hr].
  - split; [|done]. intros _. split; [lia|]. split; [done|].
    intros r Hin Heq. apply list_elem_of_In in Hin.
    assert (existsb (fun r => bool_decide (List.map lowerByte s = bytesOf r)) reservedNames = true)
      as Ht by (apply existsb_exists; exists r; split; [exact Hin|apply bool_decide_eq_true; exact Heq]).
    congruence.
Qed.

Lemma lowerByte_letter c : between 97 (lowerByte c) 122 = true -> validNameByte c = true.
Proof.
  unfold lowerByte, validNameByte, between. intros Hb.
  destruct (Nat.leb 65 c && Nat.leb c 90) eqn:E; rewrite !andb_true_iff, !Nat.leb_le in Hb;
    [apply andb_true_iff in E as [E1 E2]; apply Nat.leb_le in E1, E2 |];
    rewrite ?orb_true_iff, ?andb_true_iff, ?Nat.leb_le, ?Nat.eqb_eq; lia.
Qed.

(** The reserved names are matched after trimming and without regard to
    ASCII case: any name whose trimmed bytes, with the ASCII letters A-Z
    lowered, spell a reserved name (such as " MaStEr ") is rejected as
    reserved. *)
Theorem validatePlayerName_reserved_any_case nm r :
  r ∈ reservedNames ->
  List.map lowerByte (trimSpace (bytesOf nm)) = bytesOf r ->
  validatePlayerName nm = Some NameReserved.
Proof.
  intros Hin Heq. unfold validatePlayerName. set (s := trimSpace (bytesOf nm)) in *.
  assert (Hr : Forall (fun b => between 97 b 122 = true) (bytesOf r) /\
               5 <= length (bytesOf r) <= 6).
  { repeat (apply elem_of_cons in Hin as [->|Hin];
              [split; [vm_compute; repeat constructor | vm_compute; lia] |]).
    apply elem_of_nil in Hin. contradiction. }
  destruct Hr as [Hr Hl].
  rewrite <- Heq in Hr, Hl. rewrite length_map in Hl.
  apply Forall_map in Hr.
  assert (Hv : forallb validNameByte s = true).
  { apply forallb_forall. intros c Hc. apply lowerByte_letter.
    rewrite Forall_forall in Hr. apply Hr, list_elem_of_In, Hc. }
  assert (E1 : Nat.ltb (length s) minNameLength = false)
    by (apply Nat.ltb_ge; unfold minNameLength; lia).
  assert (E2 : Nat.ltb maxNameLength (length s) = false)
    by (apply Nat.ltb_ge; unfold maxNameLength; lia).
  assert (E3 : Nat.eqb (length s) 0 = false) by (apply Nat.eqb_neq; lia).
  assert (E4 : existsb (fun r => bool_decide (List.map lowerByte s = bytesOf r)) reservedNames = true).
  { apply existsb_exists. exists r. split; [apply list_elem_of_In; exact Hin|].
    apply bool_decide_eq_true. exact Heq. }
  rewrite E1, E2. unfold validNameRegexMatch. rewrite E3, Hv. cbn [negb andb].
  rewrite (validBytes_no_control _ Hv), E4. reflexivity.
Qed.

Lemma validatePlayerName_reserved_any_case_witness :
  "master" ∈ reservedNames /\
  List.map lowerByte (trimSpace (bytesOf " MaStEr ")) = bytesOf "master" /\
  validatePlayerName " MaStEr " = Some NameReserved.
Proof.
  assert (H1 : "master" ∈ reservedNames) by (apply elem_of_cons; left; reflexivity).
  assert (H2 : List.map lowerByte (trimSpace (bytesOf " MaStEr ")) = bytesOf "master")
    by (vm_compute; reflexivity).
  split; [exact H1|]. split; [exact H2|].
  exact (validatePlayerName_reserved_any_case _ _ H1 H2).
Defined.

Lemma bytesPrefix_length p s : bytesPrefix p s = true -> length p <= length s.
Proof.
  revert s. induction p as [|x p IH]; intros [|y s]; simpl; try lia; try discriminate.
  intros [_ H]%andb_true_iff. specialize (IH s H). lia.
Qed.

Lemma leadingSpace_some s n : leadingSpace s = Some n -> 1 <= n <= length s.
Proof.
  unfold leadingSpace. destruct (List.find _ spaceEncodings) as [e|] eqn:F; simpl; [|discriminate].
  intros [= <-]. apply find_some in F as [Hin Hp]. apply bytesPrefix_length in Hp.
  split; [|exact Hp].
  assert (Hne : Forall (fun e => 1 <= length e) spaceEncodings)
    by (repeat constructor; simpl; lia).
  rewrite Forall_forall in Hne. apply Hne, list_elem_of_In, Hin.
Qed.

Lemma trimLeftSpace_nil f : trimLeftSpace f [] = [].
Proof. destruct f; reflexivity. Qed.

Lemma trimLeftSpace_fuel f g s :
  length s <= f -> length s <= g -> trimLeftSpace f s = trimLeftSpace g s.
Proof.
  revert g s. induction f as [|f IH]; intros g s Hf Hg.
  - destruct s; [|simpl in Hf; lia]. rewrite !trimLeftSpace_nil. reflexivity.
  - destruct g as [|g].
    + destruct s; [|simpl in Hg; lia]. rewrite !trimLeftSpace_nil. reflexivity.
    + simpl. destruct (leadingSpace s) as [n|] eqn:L; [|reflexivity].
      apply leadingSpace_some in L. apply IH; rewrite length_drop; lia.
Qed.

Lemma leadingSpace_app e s : e ∈ spaceEncodings -> leadingSpace (e ++ s) = Some (length e).
Proof.
  intros Hin.
  repeat (apply elem_of_cons in Hin as [->|Hin]; [reflexivity|]).
  apply elem_of_nil in Hin. contradiction.
Qed.

Lemma trimSpace_leading e s : e ∈ spaceEncodings -> trimSpace (e ++ s) = trimSpace s.
Proof.
  intros Hin. unfold trimSpace.
  assert (E : trimLeftSpace (length (e ++ s)) (e ++ s) = trimLeftSpace (length s) s).
  { pose proof (leadingSpace_app e s Hin) as L.
    pose proof (leadingSpace_some _ _ L) as B. rewrite length_app in *.
    destruct (length e + length s) as [|k] eqn:K; [lia|]. simpl. rewrite L.
    rewrite drop_app_length. apply trimLeftSpace_fuel; lia. }
  rewrite E. reflexivity.
Qed.

(** Leading white space is ignored: prefixing a name with the UTF-8
    encoding of any rune [unicode.IsSpace] accepts does not change the
    result of [validatePlayerName]. *)
Theorem validatePlayerName_leading_space nm nm' e :
  e ∈ spaceEncodings -> bytesOf nm' = (e ++ bytesOf nm)%list ->
  validatePlayerName nm' = validatePlayerName nm.
Proof.
  intros Hin He. unfold validatePlayerName. rewrite He, (trimSpace_leading _ _ Hin). reflexivity.
Qed.

Lemma validatePlayerName_leading_space_witness :
  [194; 160] ∈ spaceEncodings /\
  bytesOf (String (ascii_of_nat 194) (String (ascii_of_nat 160) "bob")) = ([194; 160] ++ bytesOf "bob")%list /\
  validatePlayerName (String (ascii_of_nat 194) (String (ascii_of_nat 160) "bob")) = validatePlayerName "bob".
Proof.
  assert (H1 : [194; 160] ∈ spaceEncodings) by (vm_compute; repeat constructor).
  assert (H2 : bytesOf (String (ascii_of_nat 194) (String (ascii_of_nat 160) "bob"))
               = ([194; 160] ++ bytesOf "bob")%list) by (vm_compute; reflexivity).
  split; [exact H1|]. split; [exact H2|].
  exact (validatePlayerName_leading_space _ _ _ H1 H2).
Defined.

(* ------------------------------------------------------------------ *)
(** ** Rendering *)






(** [playerView.View] reads the reveal flag and renders the results in two
    separate critical sections. If the flag is read while a round is
    revealed, and the master clears the round and Bob votes again before
    [showResults] runs, Alice's screen shows Bob's new vote although the
    round is hidden. Read in one snapshot, that vote does not appear. *)
Theorem results_show_hidden_vote :
  revealed afterVote = false /\
  players afterVote !! "bob" = Some (mkPlayer "8" 2 true) /\
  isInfix ("• bob: 8") (plainPlayerView revealedRound afterVote aliceView) = true /\
  isInfix ("• bob: 8") (plainPlayerView afterVote afterVote aliceView) = false.
Proof. vm_compute. repeat split. Qed.

Lemma sum_snd_perm (l l' : list (string * nat)) :
  l ≡ₚ l' -> sum_list (snd <$> l) = sum_list (snd <$> l').
Proof.
  induction 1 as [|x l l' _ IH|x y l|l l' l'' _ IH1 _ IH2]; rewrite ?fmap_cons; cbn [sum_list]; lia.
Qed.

Lemma distribution_step_sum (d : gmap string nat) p :
  sum_list (snd <$> map_to_list (<[p := S (default 0%nat (d !! p))]> d)) =
  S (sum_list (snd <$> map_to_list d)).
Proof.
  destruct (d !! p) as [n|] eqn:E; cbn [default].
  - rewrite <- insert_delete_eq.
    rewrite (sum_snd_perm _ _ (map_to_list_insert _ _ _ (lookup_delete_eq d p))).
    rewrite <- (sum_snd_perm _ _ (map_to_list_delete d p n E)).
    rewrite !fmap_cons; cbn [sum_list snd id]; lia.
  - rewrite (sum_snd_perm _ _ (map_to_list_insert _ _ _ E)).
    rewrite !fmap_cons; cbn [sum_list snd id]; lia.
Qed.

(** The counts of the distribution add up to the number of points given to
    [calculateStatistics]. Both callers of [showFinalVotes] pass
    [voted = len(points)], so the printed counts add up to [voted]. *)
Theorem distribution_counts_sum ps :
  sum_list (snd <$> map_to_list (distributionOf ps)) = length ps.
Proof.
  unfold distributionOf.
  assert (G : forall d : gmap string nat, sum_list (snd <$> map_to_list
             (fold_left (fun d p => <[p := S (default 0%nat (d !! p))]> d) ps d)) =
           (sum_list (snd <$> map_to_list d) + length ps)%nat).
  { induction ps as [|p ps IH]; intros d; simpl; [lia|].
    rewrite IH, distribution_step_sum. lia. }
  rewrite G, map_to_list_empty. reflexivity.
Qed.

Lemma insertString_perm x l : insertString x l ≡ₚ x :: l.
Proof.
  induction l as [|y l IH]; simpl; [done|].
  destruct (String.ltb y x); [|done].
  rewrite IH. apply perm_swap.
Qed.

Lemma sortStrings_perm l : sortStrings l ≡ₚ l.
Proof.
  induction l as [|x l IH]; simpl; [done|]. rewrite insertString_perm, IH. done.
Qed.

Lemma sortedKeys_perm {A} (m : gmap string A) : sortedKeys m ≡ₚ (map_to_list m).*1.
Proof.
  unfold sortedKeys. rewrite sortStrings_perm.
  assert (E : dom m = list_to_set (map_to_list m).*1) by (apply leibniz_equiv, dom_alt).
  rewrite E. apply elements_list_to_set, NoDup_fst_map_to_list.
Qed.

Lemma filter_points_omap (l : list (string * playerState)) :
  (fun kv : string * playerState => points kv.2) <$>
    List.filter (fun kv : string * playerState => selected kv.2) l = omap votedEntry l.
Proof.
  induction l as [|[k v] l IH]; [done|].
  change (omap votedEntry ((k, v) :: l)) with
    (match votedEntry (k, v) with Some y => y :: omap votedEntry l | None => omap votedEntry l end).
  unfold votedEntry at 1. cbn [List.filter snd].
  destruct (selected v); [rewrite fmap_cons|]; rewrite IH; reflexivity.
Qed.

Lemma omap_keys (m : gmap string playerState) l :
  (forall kv, kv ∈ l -> m !! kv.1 = Some kv.2) ->
  omap (fun nm => match m !! nm with
                  | Some player => if selected player then Some (points player) else None
                  | None => None
                  end) l.*1 = omap votedEntry l.
Proof.
  induction l as [|[k v] l IH]; intros H; [done|].
  assert (Hk : m !! k = Some v) by exact (H (k, v) (proj2 (elem_of_cons _ _ _) (or_introl eq_refl))).
  assert (IH' := IH (fun kv Hkv => H kv (proj2 (elem_of_cons _ _ _) (or_intror Hkv)))).
  unfold votedEntry in *. simpl in IH' |- *. rewrite Hk.
  destruct (selected v); [f_equal|]; exact IH'.
Qed.

(** The master dashboard and the players' results panel tally the same
    votes. For one snapshot of the state, the points the master collects
    in map order are a permutation of the points [showResults] collects in
    name order. So both show the same number of votes and the same
    distribution. *)
Theorem tallies_agree (st : gameState) ord :
  ord ≡ₚ map_to_list (players st) ->
  let pts := (fun kv : string * playerState => points kv.2) <$>
               List.filter (fun kv : string * playerState => selected kv.2) ord in
  pts ≡ₚ votedPoints st /\ length pts = length (votedPoints st) /\
  distributionOf pts = distributionOf (votedPoints st).
Proof.
  intros Ho pts.
  assert (P : pts ≡ₚ votedPoints st).
  { unfold pts. rewrite filter_points_omap, Ho. unfold votedPoints.
    rewrite (sortedKeys_perm (players st)).
    rewrite omap_keys; [done|]. intros [k v] Hkv. apply elem_of_map_to_list, Hkv. }
  split; [exact P|]. split; [apply Permutation_length, P|]. apply distributionOf_perm, P.
Qed.

Lemma tallies_agree_witness :
  reverse (map_to_list (players revealedRound)) ≡ₚ map_to_list (players revealedRound) /\
  distributionOf ((fun kv : string * playerState => points kv.2) <$>
    List.filter (fun kv : string * playerState => selected kv.2)
      (reverse (map_to_list (players revealedRound)))) =
  distributionOf (votedPoints revealedRound).
Proof.
  pose proof (reverse_Permutation (map_to_list (players revealedRound))) as H.
  split; [exact H|].
  exact (proj2 (proj2 (tallies_agree revealedRound _ H))).
Defined.
